(** * The console map service ([use-map.ts]): tree classification,
      visibility propagation, inflight aggregation and edge ports.

    Shallow embedding of
    [apps/wing-console/console/ui/src/services/use-map.ts].

    Modelling conventions.
    - A JS string is a [string]; its characters are the 8-bit characters
      of [ascii].  The two line terminators U+2028 and U+2029 of the JS
      regular expression dot are outside this alphabet.
    - An optional field ([fqn], [display?.hidden], [operation]) is an
      [option]; [undefined] is [None].
    - A JS object used as a dictionary ([node.children]) is the list of
      its (key, value) pairs in the order [Object.values] enumerates
      them; an absent [children] is the empty list, which is what
      [node.children ?? {}] makes of it.
    - A JS [Map] that is filled by a traversal is a [gmap] threaded
      through the traversal; [Map.set] is insertion.
    - Each [useMemo]/[useCallback] is the pure function of its inputs
      that its body computes. *)

From Stdlib Require Import Ascii.
From stdpp Require Import gmap strings list fin_maps.

(** ** Data model *)

(** [ConstructTreeNode] of the SDK, restricted to the fields the
    service reads: [path], [constructInfo?.fqn], [display?.hidden] and
    [children]. *)
#[warnings="-register-all"]
Inductive ConstructTreeNode : Type :=
  mkNode {
    path : string;
    fqn : option string;
    hidden : option bool;
    children : list (string * ConstructTreeNode)
  }.

Module Raw.
(** [RawConnectionData]. *)
Record RawConnectionData : Type :=
  mk {
    source : string;
    target : string;
    sourceOp : option string;
    targetOp : option string;
    name : string
  }.
End Raw.

Module Conn.
(** The endpoint record the service builds for the bridger. *)
Record Endpoint : Type :=
  mkEndpoint {
    id : string;
    nodeFqn : option string;
    operation : option string
  }.

Record Connection : Type :=
  mk {
    source : Endpoint;
    target : Endpoint
  }.
End Conn.

Module Inflight.
(** [NodeInflight]; both occupancy fields are always written by
    [getNodeInflights]. *)
Record NodeInflight : Type :=
  mk {
    id : string;
    name : string;
    sourceOccupied : bool;
    targetOccupied : bool
  }.
End Inflight.

Module Edge.
(** The fields of [ElkExtendedEdge] the service fills. *)
Record ElkExtendedEdge : Type :=
  mk {
    id : string;
    sources : list string;
    targets : list string
  }.
End Edge.

(** [NodeV2["type"]]. *)
Inductive NodeType : Type :=
  | container
  | autoId
  | function
  | scheduler
  | endpoint
  | construct.

(** [NodeV2], the tagged union of node descriptors. *)
Inductive NodeV2 : Type :=
  | V2container (children : list string)
  | V2autoId
  | V2function
  | V2scheduler
  | V2endpoint
  | V2construct (inflights : list Inflight.NodeInflight).

(** The [type] field of a descriptor. *)
Definition typeOf (d : NodeV2) : NodeType :=
  match d with
  | V2container _ => container
  | V2autoId => autoId
  | V2function => function
  | V2scheduler => scheduler
  | V2endpoint => endpoint
  | V2construct _ => construct
  end.

(** The [type] argument of [getConnectionId]. *)
Inductive Direction : Type :=
  | dirSource
  | dirTarget.

Definition directionString (d : Direction) : string :=
  match d with
  | dirSource => "source"
  | dirTarget => "target"
  end.

(** ** JavaScript helpers *)

(** Truthiness of an optional boolean. *)
Definition truthy (b : option bool) : bool :=
  match b with
  | Some true => true
  | _ => false
  end.

(** Truthiness of an optional string: defined and not empty. *)
Definition truthyString (o : option string) : bool :=
  match o with
  | Some s => negb (String.eqb s EmptyString)
  | None => false
  end.

(** How a template literal prints an optional string. *)
Definition showOptional (o : option string) : string :=
  match o with
  | Some s => s
  | None => "undefined"
  end.

(** [Object.values(node.children ?? {})]. *)
Definition childNodes (node : ConstructTreeNode) : list ConstructTreeNode :=
  map snd (children node).

(** [node.children?.[key]]. *)
Fixpoint lookupKey (key : string) (kvs : list (string * ConstructTreeNode))
    : option ConstructTreeNode :=
  match kvs with
  | [] => None
  | (k, v) :: rest => if String.eqb k key then Some v else lookupKey key rest
  end.

(** lodash [uniqBy]: the loop of [baseUniq], which keeps a value when
    its computed key has not been seen yet. *)
Fixpoint baseUniq {A : Type} (iteratee : A -> string) (seen : list string)
    (array : list A) : list A :=
  match array with
  | [] => []
  | value :: rest =>
      let computed := iteratee value in
      if existsb (String.eqb computed) seen
      then baseUniq iteratee seen rest
      else value :: baseUniq iteratee (computed :: seen) rest
  end.

Definition uniqBy {A : Type} (array : list A) (iteratee : A -> string) : list A :=
  baseUniq iteratee [] array.

(** ** [getNodeType] *)

Definition fqnFunction : string := "@winglang/sdk.cloud.Function".
Definition fqnAutoId : string := "@winglang/sdk.std.AutoIdResource".
Definition fqnSchedule : string := "@winglang/sdk.cloud.Schedule".
Definition fqnEndpoint : string := "@winglang/sdk.cloud.Endpoint".
Definition fqnApi : string := "@winglang/sdk.cloud.Api".

(** [x === "literal"] on an optional string. *)
Definition optionIs (o : option string) (s : string) : bool :=
  match o with
  | Some t => String.eqb t s
  | None => false
  end.

Definition hasVisibleChildren (node : ConstructTreeNode) : bool :=
  existsb (fun child => negb (truthy (hidden child))) (childNodes node).

Definition getNodeType (node : ConstructTreeNode) (hasInflightConnections : bool)
    : NodeType :=
  if optionIs (fqn node) fqnFunction then function
  else if optionIs (fqn node) fqnAutoId then autoId
  else if optionIs (fqn node) fqnSchedule then scheduler
  else if optionIs (fqn node) fqnEndpoint then endpoint
  else if optionIs (fqn node) fqnApi
          || hasInflightConnections
          || negb (hasVisibleChildren node)
  then construct
  else container.

(** ** [getNodeInflights] *)

(** The body of the two [for] loops: push the operation at the given
    end of each connection when it is truthy. *)
Fixpoint pushOperations (side : Conn.Connection -> Conn.Endpoint)
    (connections : list Conn.Connection) : list string :=
  match connections with
  | [] => []
  | connection :: rest =>
      match Conn.operation (side connection) with
      | Some op =>
          if truthyString (Some op)
          then op :: pushOperations side rest
          else pushOperations side rest
      | None => pushOperations side rest
      end
  end.

(** [connection.<side>.id === node.path], the predicate of the two
    [filter] calls. *)
Definition atNode (nodePath : string) (side : Conn.Connection -> Conn.Endpoint)
    (connection : Conn.Connection) : bool :=
  String.eqb (Conn.id (side connection)) nodePath.

(** [connections.some(c => c.<side>.id === node.path &&
    c.<side>.operation === name)]. *)
Definition occupied (nodePath : string) (side : Conn.Connection -> Conn.Endpoint)
    (name : string) (connections : list Conn.Connection) : bool :=
  existsb (fun otherConnection =>
             String.eqb (Conn.id (side otherConnection)) nodePath
             && optionIs (Conn.operation (side otherConnection)) name)
          connections.

Definition getNodeInflights (node : ConstructTreeNode)
    (connections : list Conn.Connection) : list Inflight.NodeInflight :=
  let inflights :=
    pushOperations Conn.target
      (List.filter (atNode (path node) Conn.target) connections)
    ++ pushOperations Conn.source
         (List.filter (atNode (path node) Conn.source) connections) in
  map (fun connection =>
         Inflight.mk (path node +:+ "#" +:+ connection)
                     connection
                     (occupied (path node) Conn.source connection connections)
                     (occupied (path node) Conn.target connection connections))
      (uniqBy inflights (fun inflight => inflight)).

(** ** [useMap] *)

(** The bridger is imported from [use-map.bridge-connections.js]; the
    service is defined over any function of its signature. *)
Definition Bridger : Type :=
  list Conn.Connection ->
  (Conn.Endpoint -> bool) ->
  (Conn.Endpoint -> string) ->
  (Conn.Connection -> string) ->
  list Conn.Connection.

(** [rawConnections?.some(c => c.source === path || c.target === path)
    ?? false]. *)
Definition hasRawConnection (rawConnections : option (list Raw.RawConnectionData))
    (nodePath : string) : bool :=
  match rawConnections with
  | Some cs =>
      existsb (fun connection =>
                 String.eqb (Raw.source connection) nodePath
                 || String.eqb (Raw.target connection) nodePath) cs
  | None => false
  end.

(** [connections?.some(c => c.source.id === path || c.target.id === path)
    ?? false]. *)
Definition hasConnection (connections : option (list Conn.Connection))
    (nodePath : string) : bool :=
  match connections with
  | Some cs =>
      existsb (fun connection =>
                 String.eqb (Conn.id (Conn.source connection)) nodePath
                 || String.eqb (Conn.id (Conn.target connection)) nodePath) cs
  | None => false
  end.

(** [processNode] of [nodeFqns]. *)
Fixpoint processNodeFqn (node : ConstructTreeNode)
    (nodeTypes : gmap string (option string)) : gmap string (option string) :=
  fold_left (fun acc child => processNodeFqn (snd child) acc)
            (children node)
            (<[path node := fqn node]> nodeTypes).

Definition nodeFqns (rawTree : option ConstructTreeNode)
    : option (gmap string (option string)) :=
  match rawTree with
  | None => None
  | Some tree => Some (processNodeFqn tree ∅)
  end.

(** [nodeFqns.get(path)]. *)
Definition getFqn (fqns : gmap string (option string)) (nodePath : string)
    : option string :=
  match fqns !! nodePath with
  | Some o => o
  | None => None
  end.

(** [processNode] of [nodeTypes]. *)
Fixpoint processNodeType (rawConnections : option (list Raw.RawConnectionData))
    (node : ConstructTreeNode) (nodeTypes : gmap string NodeType)
    : gmap string NodeType :=
  fold_left (fun acc child => processNodeType rawConnections (snd child) acc)
            (children node)
            (<[path node :=
                 getNodeType node (hasRawConnection rawConnections (path node))]>
               nodeTypes).

Definition nodeTypes (rawTree : option ConstructTreeNode)
    (rawConnections : option (list Raw.RawConnectionData))
    : option (gmap string NodeType) :=
  match rawTree with
  | None => None
  | Some tree => Some (processNodeType rawConnections tree ∅)
  end.

(** [traverse] of [hiddenMap]. *)
Fixpoint traverse (node : ConstructTreeNode) (forceHidden : option bool)
    (hiddenMap : gmap string bool) : gmap string bool :=
  let hidden := truthy forceHidden || truthy (hidden node) || false in
  fold_left (fun acc child => traverse (snd child) (Some hidden) acc)
            (children node)
            (<[path node := hidden]> hiddenMap).

(** [rawTree?.children?.["Default"]]. *)
Definition pseudoRoot (rawTree : option ConstructTreeNode)
    : option ConstructTreeNode :=
  match rawTree with
  | Some tree => lookupKey "Default" (children tree)
  | None => None
  end.

Definition hiddenMap (rawTree : option ConstructTreeNode) : gmap string bool :=
  fold_left (fun acc child => traverse (snd child) None acc)
            (match pseudoRoot rawTree with
             | Some node => children node
             | None => []
             end)
            ∅.

(** The characters the dot of a JS regular expression rejects. *)
Definition isLineTerminator (c : Ascii.ascii) : bool :=
  Ascii.eqb c "010"%char || Ascii.eqb c "013"%char.

(** The lazy group of [/^(.+?)#/] once it holds a character: it stops
    at the first ["#"] and gives up on a line terminator or at the end
    of the input.  The result is what the group still consumes. *)
Fixpoint lazyUntilHash (s : string) : option string :=
  match s with
  | EmptyString => None
  | String c rest =>
      if Ascii.eqb c "#"%char then Some EmptyString
      else if isLineTerminator c then None
      else option_map (String c) (lazyUntilHash rest)
  end.

(** [path.match(/^(.+?)#/)?.[1]]: the group takes one character, which
    may be ["#"] itself, and then extends lazily. *)
Definition matchNodePath (path : string) : option string :=
  match path with
  | EmptyString => None
  | String c rest =>
      if isLineTerminator c then None
      else option_map (String c) (lazyUntilHash rest)
  end.

Definition isNodeHidden (hiddenMap : gmap string bool) (path : string) : bool :=
  let nodePath :=
    match matchNodePath path with
    | Some group => group
    | None => path
    end in
  bool_decide (hiddenMap !! nodePath = Some true).

Definition rootNodes (rawTree : option ConstructTreeNode)
    : option (list ConstructTreeNode) :=
  match pseudoRoot rawTree with
  | Some node => Some (childNodes node)
  | None => None
  end.

(** The [getConnectionId] callback handed to the bridger. *)
Definition bridgeConnectionId (connection : Conn.Connection) : string :=
  Conn.id (Conn.source connection) +:+ "#"
  +:+ showOptional (Conn.operation (Conn.source connection)) +:+ "##"
  +:+ Conn.id (Conn.target connection) +:+ "#"
  +:+ showOptional (Conn.operation (Conn.target connection)).

Definition notInvokeAsync (connection : Raw.RawConnectionData) : bool :=
  negb (optionIs (Raw.sourceOp connection) "invokeAsync")
  && negb (optionIs (Raw.targetOp connection) "invokeAsync").

(** The [.map] that builds the bridger's input. *)
Definition toConnection (fqns : gmap string (option string))
    (connection : Raw.RawConnectionData) : Conn.Connection :=
  Conn.mk
    (Conn.mkEndpoint (Raw.source connection)
                     (getFqn fqns (Raw.source connection))
                     (Raw.sourceOp connection))
    (Conn.mkEndpoint (Raw.target connection)
                     (getFqn fqns (Raw.target connection))
                     (Raw.targetOp connection)).

(** The list the service passes as [connections] to the bridger. *)
Definition bridgerInput (fqns : gmap string (option string))
    (rawConnections : list Raw.RawConnectionData) : list Conn.Connection :=
  map (toConnection fqns) (List.filter notInvokeAsync rawConnections).

(** The outer [getConnectionId]: the port of one end of a connection. *)
Definition getConnectionId (hiddenMap : gmap string bool) (nodePath : string)
    (nodeFqn : option string) (operation : option string) (type : Direction)
    : string :=
  if isNodeHidden hiddenMap nodePath then nodePath
  else if optionIs nodeFqn fqnFunction
  then nodePath +:+ "#invoke#" +:+ directionString type
  else if truthyString operation
  then nodePath +:+ "#" +:+ showOptional operation +:+ "#" +:+ directionString type
  else nodePath +:+ "#" +:+ directionString type.

(** The body of the [.map] of [edges]. *)
Definition toEdge (hiddenMap : gmap string bool) (connection : Conn.Connection)
    : Edge.ElkExtendedEdge :=
  let source :=
    getConnectionId hiddenMap
      (Conn.id (Conn.source connection))
      (Conn.nodeFqn (Conn.source connection))
      (Conn.operation (Conn.source connection))
      dirSource in
  let target :=
    getConnectionId hiddenMap
      (Conn.id (Conn.target connection))
      (Conn.nodeFqn (Conn.target connection))
      (Conn.operation (Conn.target connection))
      dirTarget in
  Edge.mk (source +:+ "##" +:+ target) [source] [target].

(** [processNode] of [nodeInfo]. *)
Fixpoint processNodeInfo (connections : option (list Conn.Connection))
    (node : ConstructTreeNode) (nodeMap : gmap string NodeV2)
    : gmap string NodeV2 :=
  let nodeType := getNodeType node (hasConnection connections (path node)) in
  let inflights :=
    getNodeInflights node (match connections with Some cs => cs | None => [] end) in
  let descriptor :=
    match nodeType with
    | container => V2container (map path (childNodes node))
    | autoId => V2autoId
    | function => V2function
    | _ => V2construct inflights
    end in
  fold_left (fun acc child => processNodeInfo connections (snd child) acc)
            (children node)
            (<[path node := descriptor]> nodeMap).

Section UseMap.

Variable bridgeConnections : Bridger.

Definition connections (rawTree : option ConstructTreeNode)
    (rawConnections : option (list Raw.RawConnectionData))
    : option (list Conn.Connection) :=
  match rawConnections, nodeFqns rawTree with
  | Some rcs, Some fqns =>
      Some (bridgeConnections
              (bridgerInput fqns rcs)
              (fun node => isNodeHidden (hiddenMap rawTree) (Conn.id node))
              (fun node => Conn.id node)
              bridgeConnectionId)
  | _, _ => None
  end.

Definition edges (rawTree : option ConstructTreeNode)
    (rawConnections : option (list Raw.RawConnectionData))
    : list Edge.ElkExtendedEdge :=
  match connections rawTree rawConnections with
  | Some cs => map (toEdge (hiddenMap rawTree)) cs
  | None => []
  end.

Definition nodeInfo (rawTree : option ConstructTreeNode)
    (rawConnections : option (list Raw.RawConnectionData))
    : option (gmap string NodeV2) :=
  match rawTree, rawConnections with
  | Some tree, Some _ =>
      Some (processNodeInfo (connections rawTree rawConnections) tree ∅)
  | _, _ => None
  end.

End UseMap.

(** ** The bridger *)

Section BridgeModel.

(** The parent of a path, [None] at the root.  The specification
    derives ancestry from the path and does not fix its syntax. *)
Variable parentPath : string -> option string.

(** Modelled from the spec: the ascent loop of the bridger, whose file
    [use-map.bridge-connections.ts] is not among the sources.  "While
    [isHidden(currentPath)] is true, replace [currentPath] with its
    parent path.  Stop at the first visible ancestor, or at the root
    if none is visible."  The fuel bounds the iterations. *)
Fixpoint ascend (fuel : nat) (isHidden : string -> bool) (currentPath : string)
    : string :=
  if isHidden currentPath
  then match parentPath currentPath with
       | Some parent =>
           match fuel with
           | S fuel' => ascend fuel' isHidden parent
           | O => currentPath
           end
       | None => currentPath
       end
  else currentPath.

(** Modelled from the spec: bridging one endpoint (absent file
    [use-map.bridge-connections.ts]).  The endpoint is resolved to
    its node path, the path ascends, and "the endpoint's [operation]
    is preserved unchanged through ascent".  A parent path is shorter
    than its child, so the length of the path is enough fuel. *)
Definition bridgeEndpoint (isNodeHidden : Conn.Endpoint -> bool)
    (getNodeId : Conn.Endpoint -> string) (node : Conn.Endpoint)
    : Conn.Endpoint :=
  let start := getNodeId node in
  let isHidden := fun p =>
    isNodeHidden (Conn.mkEndpoint p (Conn.nodeFqn node) (Conn.operation node)) in
  Conn.mkEndpoint (ascend (String.length start) isHidden start)
                  (Conn.nodeFqn node)
                  (Conn.operation node).

(** Modelled from the spec: [bridgeConnections] (absent file
    [use-map.bridge-connections.ts]).  Each endpoint is bridged
    independently; "a connection whose source and target bridge to the
    same node after ascent is dropped"; "duplicates are merged (kept
    once)", identity being the connection id of the caller. *)
Definition bridgeConnections : Bridger :=
  fun connections isNodeHidden getNodeId getConnectionId =>
    uniqBy
      (List.filter
         (fun connection =>
            negb (String.eqb (getNodeId (Conn.source connection))
                             (getNodeId (Conn.target connection))))
         (map (fun connection =>
                 Conn.mk
                   (bridgeEndpoint isNodeHidden getNodeId (Conn.source connection))
                   (bridgeEndpoint isNodeHidden getNodeId (Conn.target connection)))
              connections))
      getConnectionId.

(** [nearest] is the nearest visible ancestor of [start], [start]
    itself when it is visible. *)
Inductive nearestVisible (isHidden : string -> bool) : string -> string -> Prop :=
  | nearest_here p :
      isHidden p = false -> nearestVisible isHidden p p
  | nearest_up p parent nearest :
      isHidden p = true ->
      parentPath p = Some parent ->
      nearestVisible isHidden parent nearest ->
      nearestVisible isHidden p nearest.

End BridgeModel.

(** A concrete path syntax for examples: segments separated by ["/"];
    the parent drops the last segment. *)
Fixpoint dropLastSegment (s : string) : option string :=
  match s with
  | EmptyString => None
  | String c rest =>
      match dropLastSegment rest with
      | Some prefix => Some (String c prefix)
      | None => if Ascii.eqb c "/"%char then Some EmptyString else None
      end
  end.

(** ** Proof-side views of the traversals *)

(** The nodes of a subtree, in the order the traversals visit them. *)
Fixpoint subnodes (node : ConstructTreeNode) : list ConstructTreeNode :=
  node :: flat_map (fun child => subnodes (snd child)) (children node).

(** The nodes below a list of (key, node) pairs. *)
Definition forest (kvs : list (string * ConstructTreeNode)) : list ConstructTreeNode :=
  flat_map (fun child => subnodes (snd child)) kvs.

(** The writes of [traverse], in order. *)
Fixpoint hiddenWrites (node : ConstructTreeNode) (forceHidden : bool)
    : list (string * bool) :=
  let h := forceHidden || truthy (hidden node) in
  (path node, h) :: flat_map (fun child => hiddenWrites (snd child) h) (children node).

(** The writes of the traversals started at the top-level nodes. *)
Definition forestWrites (kvs : list (string * ConstructTreeNode))
    : list (string * bool) :=
  flat_map (fun child => hiddenWrites (snd child) false) kvs.

(** Replaying a list of [Map.set] calls. *)
Definition replay {V : Type} (writes : list (string * V)) (m : gmap string V)
    : gmap string V :=
  fold_left (fun acc w => <[fst w := snd w]> acc) writes m.

(** First-seen deduplication, as the specification words it. *)
Fixpoint firstSeen (l : list string) : list string :=
  match l with
  | [] => []
  | x :: rest => x :: List.filter (fun y => negb (String.eqb y x)) (firstSeen rest)
  end.

(** The prefix of a string before its first ["#"]. *)
Fixpoint beforeFirstHash (s : string) : string :=
  match s with
  | EmptyString => EmptyString
  | String c rest =>
      if Ascii.eqb c "#"%char then EmptyString else String c (beforeFirstHash rest)
  end.

(** The descriptor [processNode] of [nodeInfo] stores for a node. *)
Definition descriptorOf (connections : option (list Conn.Connection))
    (node : ConstructTreeNode) : NodeV2 :=
  match getNodeType node (hasConnection connections (path node)) with
  | container => V2container (map path (childNodes node))
  | autoId => V2autoId
  | function => V2function
  | _ => V2construct
           (getNodeInflights node
              (match connections with Some cs => cs | None => [] end))
  end.

(** [node] is the source or the target of a raw connection. *)
Definition isRawEndpoint (rawConnections : option (list Raw.RawConnectionData))
    (nodePath : string) : Prop :=
  match rawConnections with
  | Some cs =>
      exists connection,
        connection ∈ cs /\
        (Raw.source connection = nodePath \/ Raw.target connection = nodePath)
  | None => False
  end.

(** [node] is the source or the target of a connection of the list. *)
Definition isEndpoint (connections : list Conn.Connection) (nodePath : string)
    : Prop :=
  exists connection,
    connection ∈ connections /\
    (Conn.id (Conn.source connection) = nodePath
     \/ Conn.id (Conn.target connection) = nodePath).

(** No child is declared visible: every child has [display.hidden]
    set to [true]. *)
Definition allChildrenDeclaredHidden (node : ConstructTreeNode) : Prop :=
  forall child, child ∈ childNodes node -> hidden child = Some true.

(** The four kinds that map directly to a role. *)
Definition wellKnownKind (node : ConstructTreeNode) : Prop :=
  fqn node = Some fqnFunction \/ fqn node = Some fqnAutoId
  \/ fqn node = Some fqnSchedule \/ fqn node = Some fqnEndpoint.

(** The classifier as the specification words it: participation is in
    the bridged connections and a child counts as visible when it is
    effectively visible. *)
Definition specRole (hiddenMap : gmap string bool)
    (bridged : list Conn.Connection) (node : ConstructTreeNode) : NodeType :=
  if optionIs (fqn node) fqnFunction then function
  else if optionIs (fqn node) fqnAutoId then autoId
  else if optionIs (fqn node) fqnSchedule then scheduler
  else if optionIs (fqn node) fqnEndpoint then endpoint
  else if optionIs (fqn node) fqnApi
          || hasConnection (Some bridged) (path node)
          || negb (existsb (fun child => negb (isNodeHidden hiddenMap (path child)))
                           (childNodes node))
  then construct
  else container.

(** Whether a string contains ["#"]. *)
Fixpoint containsHash (s : string) : bool :=
  match s with
  | EmptyString => false
  | String c rest => Ascii.eqb c "#"%char || containsHash rest
  end.

(** Whether a string contains a line terminator. *)
Fixpoint containsLineTerminator (s : string) : bool :=
  match s with
  | EmptyString => false
  | String c rest => isLineTerminator c || containsLineTerminator rest
  end.

(** The path a query is looked up at, stated on positions: the input
    is cut before its first ["#"] that is not its first character,
    when no line terminator comes before that ["#"]; otherwise it is
    kept whole. *)
Definition stripOperation (s : string) : string :=
  match s with
  | EmptyString => s
  | String c rest =>
      let group := String c (beforeFirstHash rest) in
      if containsHash rest && negb (containsLineTerminator group)
      then group
      else s
  end.

(** A connection of the list has the node at the given end, with the
    given operation name there. *)
Definition usedAt (nodePath : string) (side : Conn.Connection -> Conn.Endpoint)
    (connections : list Conn.Connection) (name : string) : Prop :=
  exists connection,
    connection ∈ connections /\
    Conn.id (side connection) = nodePath /\
    Conn.operation (side connection) = Some name.

(** The operation name a connection contributes at the given end of
    the node: the name there when the node is at that end and the name
    is not empty. *)
Definition operationAt (nodePath : string) (side : Conn.Connection -> Conn.Endpoint)
    (connection : Conn.Connection) : option string :=
  if decide (Conn.id (side connection) = nodePath)
  then match Conn.operation (side connection) with
       | Some name => if decide (name = EmptyString) then None else Some name
       | None => None
       end
  else None.

(** Membership in a list of names, as a boolean. *)
Definition nameIn (names : list string) (name : string) : bool :=
  existsb (String.eqb name) names.

(** The operation of an endpoint is absent: [undefined] or empty. *)
Definition operationAbsent (node : Conn.Endpoint) : Prop :=
  Conn.operation node = None \/ Conn.operation node = Some EmptyString.

(** ** Example inputs *)

Definition leafNode (p : string) (kind : option string) (h : option bool)
    : ConstructTreeNode :=
  mkNode p kind h [].

Definition exampleX : ConstructTreeNode :=
  mkNode "root/Default/X" None None [("c", leafNode "root/Default/X/c" None None)].

Definition exampleA : ConstructTreeNode :=
  mkNode "root/Default/A" None (Some true)
    [("B", leafNode "root/Default/A/B" None None)].

(** The application node: a plain node [X] that has one child, a leaf
    [Y], a cloud function [F], a schedule [S] and a hidden node [A]
    whose child [B] declares nothing. *)
Definition exampleDefault : ConstructTreeNode :=
  mkNode "root/Default" None None
    [("X", exampleX);
     ("Y", leafNode "root/Default/Y" None None);
     ("F", leafNode "root/Default/F" (Some fqnFunction) None);
     ("S", leafNode "root/Default/S" (Some fqnSchedule) None);
     ("A", exampleA)].

Definition exampleTree : ConstructTreeNode :=
  mkNode "root" None None [("Default", exampleDefault)].

(** Bridged connections around [Y]: called with [get] by [X], calling
    [F] with [get] at its own end, and called once with no operation. *)
Definition exampleBridged : list Conn.Connection :=
  [Conn.mk (Conn.mkEndpoint "root/Default/X" None (Some "call"))
           (Conn.mkEndpoint "root/Default/Y" None (Some "get"));
   Conn.mk (Conn.mkEndpoint "root/Default/Y" None (Some "get"))
           (Conn.mkEndpoint "root/Default/F" (Some fqnFunction) (Some "invoke"));
   Conn.mk (Conn.mkEndpoint "root/Default/Y" None (Some "put"))
           (Conn.mkEndpoint "root/Default/F" (Some fqnFunction) (Some "invoke"));
   Conn.mk (Conn.mkEndpoint "root/Default/X" None None)
           (Conn.mkEndpoint "root/Default/Y" None (Some "list"))].

(** Connections that carry no operation name at the end of [Y]. *)
Definition exampleUnnamed : list Conn.Connection :=
  [Conn.mk (Conn.mkEndpoint "root/Default/X" None (Some "call"))
           (Conn.mkEndpoint "root/Default/Y" None None);
   Conn.mk (Conn.mkEndpoint "root/Default/Y" None (Some EmptyString))
           (Conn.mkEndpoint "root/Default/F" (Some fqnFunction) (Some "invoke"))].

Definition exampleY : ConstructTreeNode := leafNode "root/Default/Y" None None.

(** One connection, on the deferred-invocation alias. *)
Definition exampleAsync : Raw.RawConnectionData :=
  Raw.mk "root/Default/X" "root/Default/Y" (Some "invokeAsync") None "async".

Definition exampleAsyncOnly : list Raw.RawConnectionData := [exampleAsync].

(** Two calls of [Y] into the function [F] on different operations,
    and one call out of the hidden subtree. *)
Definition exampleCalls : list Raw.RawConnectionData :=
  [Raw.mk "root/Default/Y" "root/Default/F" (Some "call") (Some "invoke") "first";
   Raw.mk "root/Default/Y" "root/Default/F" (Some "call") (Some "handle") "second";
   Raw.mk "root/Default/A/B" "root/Default/Y" (Some "call") (Some "get") "third"].


(** The hidden paths of the example tree, as a predicate. *)
Definition exampleHidden (p : string) : bool :=
  String.eqb p "root/Default/A" || String.eqb p "root/Default/A/B".

(** The input of the bridger for [exampleCalls]. *)
Definition exampleInput : list Conn.Connection :=
  [Conn.mk (Conn.mkEndpoint "root/Default/Y" None (Some "call"))
           (Conn.mkEndpoint "root/Default/F" (Some fqnFunction) (Some "invoke"));
   Conn.mk (Conn.mkEndpoint "root/Default/Y" None (Some "call"))
           (Conn.mkEndpoint "root/Default/F" (Some fqnFunction) (Some "handle"));
   Conn.mk (Conn.mkEndpoint "root/Default/A/B" None (Some "call"))
           (Conn.mkEndpoint "root/Default/Y" None (Some "get"))].

(** A connection that has the node at one of its ends. *)
Definition touches (nodePath : string) (connection : Conn.Connection) : bool :=
  atNode nodePath Conn.source connection || atNode nodePath Conn.target connection.

(** An operation that the printed id shows as it is: no ["#"], and not
    the text that stands for an absent operation. *)
Definition printable (operation : option string) : Prop :=
  containsHash (showOptional operation) = false /\
  operation <> Some "undefined".

(** A hidden application node: the wrappers declare themselves hidden
    and are still reported visible, and so is the node below. *)
Definition exampleHiddenWrappers : ConstructTreeNode :=
  mkNode "root" None (Some true)
    [("Default",
      mkNode "root/Default" None (Some true)
        [("Y", leafNode "root/Default/Y" None None)])].

(** Two nodes with the path ["root/dup"]: a schedule, then a
    function. *)
Definition exampleDuplicate : ConstructTreeNode :=
  mkNode "root" None None
    [("a", leafNode "root/dup" (Some fqnSchedule) None);
     ("b", leafNode "root/dup" (Some fqnFunction) None)].

(** ** The AWS bucket ([target-tf-aws/bucket.ts]) *)

Module Bucket.

(** [cloud.BucketEventType]; its three members have distinct values,
    so the table [EVENTS], keyed by those values, is a function on the
    members. *)
Inductive BucketEventType : Type :=
  | DELETE
  | CREATE
  | UPDATE.

Definition EVENTS (actionType : BucketEventType) : list string :=
  match actionType with
  | DELETE => ["s3:ObjectRemoved:*"]
  | CREATE => ["s3:ObjectCreated:Put"]
  | UPDATE => ["s3:ObjectCreated:Post"]
  end.

(** [CaseConventions], as far as the bucket uses it. *)
Inductive CaseConventions : Type :=
  | LOWERCASE.

(** A character of the class [[a-z0-9]]. *)
Definition isLowerAlnum (c : ascii) : bool :=
  let n := nat_of_ascii c in
  (97 <=? n) && (n <=? 122) || (48 <=? n) && (n <=? 57).

(** [NameOptions]; the global regular expression
    [/([^a-z0-9\-]+)/g] is the set of characters it matches. *)
Record NameOptions : Type :=
  mkNameOptions {
    maxLen : nat;
    case : CaseConventions;
    disallowedRegex : ascii -> bool;
    suffix : string
  }.

Definition BUCKET_PREFIX_OPTS : NameOptions :=
  mkNameOptions 37 LOWERCASE
    (fun c => negb (isLowerAlnum c || Ascii.eqb c "-"%char))
    "-".

(** Every character of the string passes the test. *)
Fixpoint allChars (test : ascii -> bool) (s : string) : bool :=
  match s with
  | EmptyString => true
  | String c rest => test c && allChars test rest
  end.

(** An attribute of a declared bucket, by the id of its construct. *)
Inductive Attribute : Type :=
  | bucketOf (constructId : string)
  | arnOf (constructId : string)
  | idOf (constructId : string).

(** One statement of the public-read policy; a resource is an
    attribute followed by literal text. *)
Record PolicyStatement : Type :=
  mkStatement {
    Effect : string;
    Principal : string;
    Action : list string;
    Resource : list (Attribute * string)
  }.

Record Policy : Type :=
  mkPolicy {
    Version : string;
    Statement : list PolicyStatement
  }.

(** The constructs [createEncryptedBucket] declares in its scope, with
    the properties it passes; [JSON.stringify(policy)] is kept as the
    policy it prints. *)
Inductive Construct : Type :=
  | S3Bucket (constructId : string) (bucketPrefix : string) (forceDestroy : bool)
  | S3BucketPublicAccessBlock (constructId : string) (bucket : Attribute)
      (blockPublicAcls blockPublicPolicy ignorePublicAcls
       restrictPublicBuckets : bool)
  | S3BucketPolicy (constructId : string) (bucket : Attribute)
      (policy : Policy) (dependsOn : list string).

(** [bucketPrefix.startsWith("xn--")]. *)
Definition startsWithXn (bucketPrefix : string) : bool :=
  String.prefix "xn--" bucketPrefix.

(** [/^[a-z0-9]/.test(bucketPrefix)]. *)
Definition beginsWithLowerAlnum (bucketPrefix : string) : bool :=
  match bucketPrefix with
  | EmptyString => false
  | String c _ => isLowerAlnum c
  end.

(** [createEncryptedBucket], given what its collaborators return:
    [bucketPrefix] is the result of [ResourceNames.generateName] and
    [isTestEnvironment] the flag of the app.  The result is the thrown
    message or the constructs declared, the returned bucket first. *)
Definition createEncryptedBucket (bucketPrefix : string)
    (isTestEnvironment isPublic : bool) (name : string)
    : string + list Construct :=
  if startsWithXn bucketPrefix
  then inl "AWS S3 bucket names cannot begin with 'xn--'."
  else if negb (beginsWithLowerAlnum bucketPrefix)
  then inl "AWS S3 bucket names must begin with a letter or number."
  else
    let bucket :=
      S3Bucket name bucketPrefix (if isTestEnvironment then true else false) in
    if isPublic
    then
      let publicAccessBlock :=
        S3BucketPublicAccessBlock "PublicAccessBlock" (bucketOf name)
          false false false false in
      let policy :=
        mkPolicy "2012-10-17"
          [mkStatement "Allow" "*" ["s3:GetObject"] [(arnOf name, "/*")]] in
      inr [bucket;
           publicAccessBlock;
           S3BucketPolicy "PublicPolicy" (bucketOf name) policy
             ["PublicAccessBlock"]]
    else inr [bucket].

(** [s.slice(-n)]: the last [n] characters, the whole string when it
    is shorter. *)
Definition sliceLast (n : nat) (s : string) : string :=
  String.substring (String.length s - n) n s.

(** [envName], for the address of the bucket's node. *)
Definition envName (addr : string) : string :=
  "BUCKET_NAME_" +:+ sliceLast 8 addr.

(** What [super.createTopic] hands back: a topic of this target, with
    its arn and the permission that publishing needs, or a topic of
    another target. *)
Inductive TopicHandler : Type :=
  | AWSTopic (arn : string) (permissions : string)
  | otherTopic.

Record S3BucketNotificationTopic : Type :=
  mkNotificationTopic {
    id : string;
    events : list string;
    topicArn : string
  }.

(** The two private lists of a [Bucket]. *)
Record Fields : Type :=
  mkFields {
    notificationTopics : list S3BucketNotificationTopic;
    notificationDependencies : list string
  }.

(** The fields of a new bucket. *)
Definition initial : Fields := mkFields [] [].

(** [createTopic]: the thrown message, or the fields after the two
    pushes.  [lowerName] is [actionType.toLowerCase()]. *)
Definition createTopic (lowerName : BucketEventType -> string)
    (handler : TopicHandler) (actionType : BucketEventType) (this : Fields)
    : string + Fields :=
  match handler with
  | otherTopic => inl "Topic only supports creating tfaws.Function right now"
  | AWSTopic arn permissions =>
      inr (mkFields
             (notificationTopics this
              ++ [mkNotificationTopic
                    ("on-" +:+ lowerName actionType +:+ "-notification")
                    (EVENTS actionType)
                    arn])
             (notificationDependencies this ++ [permissions]))
  end.

Record S3BucketNotification : Type :=
  mkNotification {
    bucket : Attribute;
    topic : list S3BucketNotificationTopic;
    dependsOn : list string
  }.

(** [_preSynthesize]: the notification construct it declares, if
    any, for the bucket construct [name]. *)
Definition _preSynthesize (name : string) (this : Fields)
    : option S3BucketNotification :=
  if Nat.eqb (length (notificationTopics this)) 0
  then None
  else Some (mkNotification (idOf name)
                            (notificationTopics this)
                            (notificationDependencies this)).

(** A run of [createTopic] calls on one bucket, in order; the first
    call that throws ends the run with its message. *)
Fixpoint createTopics (lowerName : BucketEventType -> string)
    (calls : list (TopicHandler * BucketEventType)) (this : Fields)
    : string + Fields :=
  match calls with
  | [] => inr this
  | (handler, actionType) :: rest =>
      match createTopic lowerName handler actionType this with
      | inr next => createTopics lowerName rest next
      | inl message => inl message
      end
  end.

(** The topic [createTopic] records for a call, when the handler is a
    topic of this target. *)
Definition recorded (lowerName : BucketEventType -> string)
    (call : TopicHandler * BucketEventType)
    : option (S3BucketNotificationTopic * string) :=
  match fst call with
  | AWSTopic arn permissions =>
      Some (mkNotificationTopic
              ("on-" +:+ lowerName (snd call) +:+ "-notification")
              (EVENTS (snd call))
              arn,
            permissions)
  | otherTopic => None
  end.

End Bucket.

(** ** Trees and replayed writes *)

(** Induction on a tree, with the hypothesis on every child. *)
Lemma ConstructTreeNode_tree_ind (P : ConstructTreeNode -> Prop) :
  (forall p f h cs, Forall (fun child => P (snd child)) cs -> P (mkNode p f h cs)) ->
  forall node, P node.
Proof.
  intros step.
  fix IH 1.
  intros [p f h cs].
  apply step.
  induction cs as [|child cs IHcs]; constructor.
  - apply IH.
  - exact IHcs.
Qed.

Lemma replay_app {V : Type} (w1 w2 : list (string * V)) (m : gmap string V) :
  replay (w1 ++ w2) m = replay w2 (replay w1 m).
Proof. unfold replay. apply fold_left_app. Qed.

Lemma replay_lookup_notin {V : Type} (ws : list (string * V)) (m : gmap string V) k :
  k ∉ map fst ws -> replay ws m !! k = m !! k.
Proof.
  revert m.
  induction ws as [|[k' v'] ws IH]; intros m Hk; [reflexivity|].
  cbn in Hk. apply not_elem_of_cons in Hk as [Hne Hk].
  change (replay ws (<[k' := v']> m) !! k = m !! k).
  rewrite IH by exact Hk.
  apply lookup_insert_ne. congruence.
Qed.

(** With distinct keys, every write is still readable at the end. *)
Lemma replay_lookup_in {V : Type} (ws : list (string * V)) (m : gmap string V) k v :
  NoDup (map fst ws) -> (k, v) ∈ ws -> replay ws m !! k = Some v.
Proof.
  revert m.
  induction ws as [|[k' v'] ws IH]; intros m Hnd Hin.
  - by apply elem_of_nil in Hin.
  - cbn in Hnd. apply NoDup_cons in Hnd as [Hfresh Hnd].
    change (replay ws (<[k' := v']> m) !! k = Some v).
    apply elem_of_cons in Hin as [Heq | Hin].
    + inversion Heq; subst k' v'.
      rewrite replay_lookup_notin by exact Hfresh.
      apply lookup_insert_eq.
    + by apply IH.
Qed.

(** A traversal that writes one entry per node and then visits the
    children in order replays the entries of [subnodes]. *)
Lemma traversal_replay {V : Type} (value : ConstructTreeNode -> V)
    (process : ConstructTreeNode -> gmap string V -> gmap string V) :
  (forall node m,
      process node m =
      fold_left (fun acc child => process (snd child) acc) (children node)
                (<[path node := value node]> m)) ->
  forall node m,
    process node m = replay (map (fun n => (path n, value n)) (subnodes node)) m.
Proof.
  intros Hstep node.
  induction node as [p f h cs IH] using ConstructTreeNode_tree_ind.
  intros m. rewrite Hstep. cbn [subnodes map children path].
  change (replay ?ws m) with (replay ws m).
  unfold replay at 1. cbn [fold_left fst snd].
  generalize (<[p := value (mkNode p f h cs)]> m) as m0.
  induction cs as [|child cs IHcs]; intros m0; [reflexivity|].
  apply Forall_cons in IH as [Hchild Hrest].
  cbn [fold_left flat_map]. rewrite map_app.
  rewrite (fold_left_app _ _ _ m0).
  rewrite Hchild. unfold replay at 1.
  apply IHcs. exact Hrest.
Qed.

Lemma processNodeType_replay rawConnections node m :
  processNodeType rawConnections node m =
  replay (map (fun n => (path n,
                         getNodeType n (hasRawConnection rawConnections (path n))))
              (subnodes node)) m.
Proof.
  apply (traversal_replay
           (fun n => getNodeType n (hasRawConnection rawConnections (path n)))
           (processNodeType rawConnections)).
  intros [p f h cs] m0. reflexivity.
Qed.

Lemma processNodeFqn_replay node m :
  processNodeFqn node m = replay (map (fun n => (path n, fqn n)) (subnodes node)) m.
Proof.
  apply (traversal_replay fqn processNodeFqn).
  intros [p f h cs] m0. reflexivity.
Qed.

Lemma processNodeInfo_replay connections node m :
  processNodeInfo connections node m =
  replay (map (fun n => (path n, descriptorOf connections n)) (subnodes node)) m.
Proof.
  apply (traversal_replay (descriptorOf connections) (processNodeInfo connections)).
  intros [p f h cs] m0. reflexivity.
Qed.

Lemma map_fst_entries {V : Type} (value : ConstructTreeNode -> V) ns :
  map fst (map (fun n => (path n, value n)) ns) = map path ns.
Proof. rewrite map_map. reflexivity. Qed.

(** Reading back the entry of a node of the tree. *)
Lemma replay_subnodes_lookup {V : Type} (value : ConstructTreeNode -> V) ns node :
  NoDup (map path ns) -> node ∈ ns ->
  replay (map (fun n => (path n, value n)) ns) ∅ !! path node = Some (value node).
Proof.
  intros Hnd Hin.
  apply replay_lookup_in.
  - by rewrite map_fst_entries.
  - apply (list_elem_of_fmap_2 (fun n => (path n, value n))) in Hin. exact Hin.
Qed.


(** ** The classifier *)

Lemma optionIs_true o s : optionIs o s = true <-> o = Some s.
Proof.
  destruct o as [t|]; cbn.
  - rewrite String.eqb_eq. split; congruence.
  - split; [discriminate | discriminate].
Qed.

Lemma optionIs_false o s : optionIs o s = false <-> o <> Some s.
Proof.
  rewrite <- optionIs_true. destruct (optionIs o s); split; congruence.
Qed.

Lemma hasRawConnection_true rawConnections nodePath :
  hasRawConnection rawConnections nodePath = true <->
  isRawEndpoint rawConnections nodePath.
Proof.
  destruct rawConnections as [cs|]; cbn; [|split; [discriminate | tauto]].
  rewrite existsb_exists. split.
  - intros (c & Hin & Hc). exists c. split; [by apply list_elem_of_In|].
    apply orb_true_iff in Hc. rewrite !String.eqb_eq in Hc. exact Hc.
  - intros (c & Hin & Hc). exists c. split; [by apply list_elem_of_In|].
    apply orb_true_iff. rewrite !String.eqb_eq. exact Hc.
Qed.

Lemma truthy_true b : truthy b = true <-> b = Some true.
Proof. destruct b as [[|]|]; cbn; split; congruence. Qed.

Lemma hasVisibleChildren_false node :
  hasVisibleChildren node = false <-> allChildrenDeclaredHidden node.
Proof.
  unfold hasVisibleChildren, allChildrenDeclaredHidden.
  rewrite <- not_true_iff_false, existsb_exists. split.
  - intros Hno child Hin. apply truthy_true.
    destruct (truthy (hidden child)) eqn:E; [reflexivity|].
    exfalso. apply Hno. exists child. split; [by apply list_elem_of_In|].
    by rewrite E.
  - intros Hall (child & Hin & Hvis).
    apply list_elem_of_In, Hall, truthy_true in Hin.
    by rewrite Hin in Hvis.
Qed.

(** The decision order of [getNodeType], for any participation flag. *)
Lemma getNodeType_decision node flag :
  (fqn node = Some fqnFunction -> getNodeType node flag = function) /\
  (fqn node = Some fqnAutoId -> getNodeType node flag = autoId) /\
  (fqn node = Some fqnSchedule -> getNodeType node flag = scheduler) /\
  (fqn node = Some fqnEndpoint -> getNodeType node flag = endpoint) /\
  (~ wellKnownKind node ->
   (fqn node = Some fqnApi \/ flag = true \/ allChildrenDeclaredHidden node ->
    getNodeType node flag = construct) /\
   (~ (fqn node = Some fqnApi \/ flag = true \/ allChildrenDeclaredHidden node) ->
    getNodeType node flag = container)).
Proof.
  unfold getNodeType, wellKnownKind.
  repeat split.
  - intros ->. reflexivity.
  - intros ->. reflexivity.
  - intros ->. reflexivity.
  - intros ->. reflexivity.
  - intros Hcond.
    destruct (optionIs (fqn node) fqnFunction) eqn:E1;
      [apply optionIs_true in E1; tauto|].
    destruct (optionIs (fqn node) fqnAutoId) eqn:E2;
      [apply optionIs_true in E2; tauto|].
    destruct (optionIs (fqn node) fqnSchedule) eqn:E3;
      [apply optionIs_true in E3; tauto|].
    destruct (optionIs (fqn node) fqnEndpoint) eqn:E4;
      [apply optionIs_true in E4; tauto|].
    assert (optionIs (fqn node) fqnApi || flag
            || negb (hasVisibleChildren node) = true) as ->; [|reflexivity].
    destruct Hcond as [Hapi | [Hflag | Hkids]].
    + apply optionIs_true in Hapi. by rewrite Hapi.
    + rewrite Hflag. by rewrite orb_true_r.
    + apply hasVisibleChildren_false in Hkids. rewrite Hkids.
      by rewrite orb_true_r.
  - intros Hcond.
    destruct (optionIs (fqn node) fqnFunction) eqn:E1;
      [apply optionIs_true in E1; tauto|].
    destruct (optionIs (fqn node) fqnAutoId) eqn:E2;
      [apply optionIs_true in E2; tauto|].
    destruct (optionIs (fqn node) fqnSchedule) eqn:E3;
      [apply optionIs_true in E3; tauto|].
    destruct (optionIs (fqn node) fqnEndpoint) eqn:E4;
      [apply optionIs_true in E4; tauto|].
    destruct (optionIs (fqn node) fqnApi) eqn:E5;
      [apply optionIs_true in E5; tauto|].
    destruct flag; [tauto|].
    destruct (hasVisibleChildren node) eqn:E6; [reflexivity|].
    apply hasVisibleChildren_false in E6. tauto.
Qed.

(** C1 (amended).  With unique paths, the role the role map holds for
    a node of the tree follows the decision order of the classifier:
    the function, auto-identifier, schedule and endpoint kinds give
    their own role; any other node is a [construct] when its kind is
    the API kind, or its path is the source or target of a raw
    connection, or every child declares itself hidden, and a
    [container] otherwise. *)
Theorem nodeTypes_decision_order tree rawConnections node :
  NoDup (map path (subnodes tree)) ->
  node ∈ subnodes tree ->
  exists roles role,
    nodeTypes (Some tree) rawConnections = Some roles /\
    roles !! path node = Some role /\
    (fqn node = Some fqnFunction -> role = function) /\
    (fqn node = Some fqnAutoId -> role = autoId) /\
    (fqn node = Some fqnSchedule -> role = scheduler) /\
    (fqn node = Some fqnEndpoint -> role = endpoint) /\
    (~ wellKnownKind node ->
     (fqn node = Some fqnApi
      \/ isRawEndpoint rawConnections (path node)
      \/ allChildrenDeclaredHidden node -> role = construct) /\
     (~ (fqn node = Some fqnApi
         \/ isRawEndpoint rawConnections (path node)
         \/ allChildrenDeclaredHidden node) -> role = container)).
Proof.
  intros Hnd Hin.
  eexists _, (getNodeType node (hasRawConnection rawConnections (path node))).
  split; [reflexivity|].
  split.
  - rewrite processNodeType_replay.
    exact (replay_subnodes_lookup
             (fun n => getNodeType n (hasRawConnection rawConnections (path n)))
             _ _ Hnd Hin).
  - pose proof (getNodeType_decision node
                  (hasRawConnection rawConnections (path node))) as Hdec.
    rewrite hasRawConnection_true in Hdec. exact Hdec.
Qed.

Lemma nodeTypes_decision_order_witness :
  exists roles role,
    nodeTypes (Some exampleTree) (Some exampleAsyncOnly) = Some roles /\
    roles !! path exampleX = Some role /\
    (fqn exampleX = Some fqnFunction -> role = function) /\
    (fqn exampleX = Some fqnAutoId -> role = autoId) /\
    (fqn exampleX = Some fqnSchedule -> role = scheduler) /\
    (fqn exampleX = Some fqnEndpoint -> role = endpoint) /\
    (~ wellKnownKind exampleX ->
     (fqn exampleX = Some fqnApi
      \/ isRawEndpoint (Some exampleAsyncOnly) (path exampleX)
      \/ allChildrenDeclaredHidden exampleX -> role = construct) /\
     (~ (fqn exampleX = Some fqnApi
         \/ isRawEndpoint (Some exampleAsyncOnly) (path exampleX)
         \/ allChildrenDeclaredHidden exampleX) -> role = container)).
Proof.
  apply (nodeTypes_decision_order exampleTree (Some exampleAsyncOnly) exampleX).
  - apply (bool_decide_unpack _). vm_compute. exact I.
  - cbn. do 2 apply list_elem_of_further. apply list_elem_of_here.
Defined.

(** C1 as stated fails.  [X] is an endpoint of a raw connection that
    never reaches the bridger, and its child is visible: the role map
    says [construct] where the stated rule gives [container].  [A] is
    hidden, so its child [B] is effectively hidden, but [B] declares
    nothing: the role map says [container] where the stated rule gives
    [construct]. *)
Lemma nodeTypes_role_counterexample :
  exists roles bridged,
    nodeTypes (Some exampleTree) (Some exampleAsyncOnly) = Some roles /\
    connections (bridgeConnections dropLastSegment)
                (Some exampleTree) (Some exampleAsyncOnly) = Some bridged /\
    roles !! path exampleX = Some construct /\
    specRole (hiddenMap (Some exampleTree)) bridged exampleX = container /\
    roles !! path exampleA = Some container /\
    specRole (hiddenMap (Some exampleTree)) bridged exampleA = construct.
Proof.
  eexists _, _.
  split; [reflexivity|].
  split; [reflexivity|].
  vm_compute. repeat split.
Qed.

(** The classifier on the example nodes: a plain node with a visible
    child and no connection is a [container]; a leaf is a [construct]. *)
Example getNodeType_example :
  getNodeType exampleX false = container /\
  getNodeType exampleX true = construct /\
  getNodeType exampleY false = construct /\
  getNodeType exampleA false = container /\
  getNodeType (leafNode "f" (Some fqnFunction) None) true = function /\
  getNodeType (mkNode "api" (Some fqnApi) None [("c", exampleX)]) false = construct.
Proof. vm_compute. repeat split. Qed.

(** ** The visibility map *)

Lemma traverse_replay node forceHidden m :
  traverse node forceHidden m = replay (hiddenWrites node (truthy forceHidden)) m.
Proof.
  revert forceHidden m.
  induction node as [p f h cs IH] using ConstructTreeNode_tree_ind.
  intros forceHidden m.
  cbn [traverse hiddenWrites children path hidden].
  rewrite orb_false_r.
  set (hid := truthy forceHidden || truthy h).
  change (replay ((p, hid) :: ?ws) m) with (replay ws (<[p := hid]> m)).
  generalize (<[p := hid]> m) as m0.
  induction cs as [|child cs IHcs]; intros m0; [reflexivity|].
  apply Forall_cons in IH as [Hchild Hrest].
  cbn [fold_left flat_map].
  rewrite replay_app, Hchild.
  replace (truthy (Some hid)) with hid by (by destruct hid).
  apply IHcs. exact Hrest.
Qed.

Lemma hiddenWrites_keys node forceHidden :
  map fst (hiddenWrites node forceHidden) = map path (subnodes node).
Proof.
  revert forceHidden.
  induction node as [p f h cs IH] using ConstructTreeNode_tree_ind.
  intros forceHidden. cbn [hiddenWrites subnodes map fst children path hidden].
  f_equal.
  generalize (forceHidden || truthy h) as hid. intros hid.
  induction cs as [|child cs IHcs]; [reflexivity|].
  apply Forall_cons in IH as [Hchild Hrest].
  cbn [flat_map]. rewrite !map_app, Hchild, (IHcs Hrest). reflexivity.
Qed.

Lemma forestWrites_replay kvs m :
  fold_left (fun acc child => traverse (snd child) None acc) kvs m =
  replay (forestWrites kvs) m.
Proof.
  revert m. induction kvs as [|child kvs IH]; intros m; [reflexivity|].
  cbn [fold_left forestWrites flat_map].
  rewrite replay_app, traverse_replay. apply IH.
Qed.

Lemma forestWrites_keys kvs :
  map fst (forestWrites kvs) = map path (forest kvs).
Proof.
  induction kvs as [|child kvs IH]; [reflexivity|].
  unfold forestWrites, forest in *. cbn [flat_map].
  rewrite !map_app, hiddenWrites_keys, IH. reflexivity.
Qed.

Lemma hiddenMap_replay tree top :
  pseudoRoot (Some tree) = Some top ->
  hiddenMap (Some tree) = replay (forestWrites (children top)) ∅.
Proof.
  intros Htop. unfold hiddenMap. rewrite Htop. apply forestWrites_replay.
Qed.








(** On the example, the hidden [A] forces its child [B] hidden. *)
Example hiddenMap_example :
  hiddenMap (Some exampleTree) !! "root/Default/A" = Some true /\
  hiddenMap (Some exampleTree) !! "root/Default/A/B" = Some true /\
  hiddenMap (Some exampleTree) !! "root/Default/X/c" = Some false /\
  hiddenMap (Some exampleTree) !! "root/Default" = None.
Proof. vm_compute. repeat split. Qed.

(** ** [isNodeHidden] *)

#[local] Arguments Ascii.eqb : simpl never.
#[local] Arguments isLineTerminator : simpl never.

Lemma lazyUntilHash_spec s :
  lazyUntilHash s =
  if containsHash s && negb (containsLineTerminator (beforeFirstHash s))
  then Some (beforeFirstHash s)
  else None.
Proof.
  induction s as [|c rest IH]; [reflexivity|].
  cbn [lazyUntilHash containsHash beforeFirstHash].
  destruct (Ascii.eqb c "#") eqn:Ehash; [reflexivity|].
  cbn [containsLineTerminator orb].
  destruct (isLineTerminator c) eqn:Elt.
  - by rewrite andb_false_r.
  - rewrite IH. cbn [orb negb].
    by destruct (containsHash rest && negb (containsLineTerminator (beforeFirstHash rest))).
Qed.

(** The group of the regular expression is the positional cut. *)
Lemma matchNodePath_stripOperation s :
  match matchNodePath s with
  | Some group => group
  | None => s
  end = stripOperation s.
Proof.
  destruct s as [|c rest]; [reflexivity|].
  cbn [matchNodePath stripOperation containsLineTerminator].
  destruct (isLineTerminator c) eqn:Elt.
  - cbn [orb negb]. by rewrite andb_false_r.
  - rewrite lazyUntilHash_spec. cbn [orb].
    by destruct (containsHash rest && negb (containsLineTerminator (beforeFirstHash rest))).
Qed.

Lemma isNodeHidden_lookup hm s :
  isNodeHidden hm s = bool_decide (hm !! stripOperation s = Some true).
Proof. unfold isNodeHidden. by rewrite matchNodePath_stripOperation. Qed.






(** Queries on the example tree: an operation suffix is cut off, and
    a path the map does not know is visible. *)
Example isNodeHidden_example :
  isNodeHidden (hiddenMap (Some exampleTree)) "root/Default/A" = true /\
  isNodeHidden (hiddenMap (Some exampleTree)) "root/Default/A#invoke" = true /\
  isNodeHidden (hiddenMap (Some exampleTree)) "root/Default/A/B#get#x" = true /\
  isNodeHidden (hiddenMap (Some exampleTree)) "root/Default/X#get" = false /\
  isNodeHidden (hiddenMap (Some exampleTree)) "unknown" = false /\
  isNodeHidden (hiddenMap (Some exampleTree)) "unknown#get" = false /\
  isNodeHidden (hiddenMap (Some exampleTree)) EmptyString = false.
Proof. vm_compute. repeat split. Qed.

(** ** [getConnectionId] *)

(** C4.  The port of an endpoint follows the first matching rule: the
    bare path for a hidden node; [path#invoke#direction] for the
    function kind, whatever the operation; [path#operation#direction]
    when an operation name is present; [path#direction] otherwise. *)
Theorem getConnectionId_rules (hm : gmap string bool) (nodePath : string)
    (nodeFqn operation : option string) (type : Direction) :
  (isNodeHidden hm nodePath = true ->
   getConnectionId hm nodePath nodeFqn operation type = nodePath) /\
  (isNodeHidden hm nodePath = false -> nodeFqn = Some fqnFunction ->
   getConnectionId hm nodePath nodeFqn operation type =
   nodePath +:+ "#invoke#" +:+ directionString type) /\
  (isNodeHidden hm nodePath = false -> nodeFqn <> Some fqnFunction ->
   forall op, operation = Some op -> op <> EmptyString ->
   getConnectionId hm nodePath nodeFqn operation type =
   nodePath +:+ "#" +:+ op +:+ "#" +:+ directionString type) /\
  (isNodeHidden hm nodePath = false -> nodeFqn <> Some fqnFunction ->
   operation = None \/ operation = Some EmptyString ->
   getConnectionId hm nodePath nodeFqn operation type =
   nodePath +:+ "#" +:+ directionString type).
Proof.
  unfold getConnectionId.
  split; [|split; [|split]].
  - intros ->. reflexivity.
  - intros -> ->. reflexivity.
  - intros -> Hkind op -> Hop.
    apply optionIs_false in Hkind. rewrite Hkind. cbn.
    destruct (String.eqb op EmptyString) eqn:E; [|reflexivity].
    apply String.eqb_eq in E. done.
  - intros -> Hkind Hop.
    apply optionIs_false in Hkind. rewrite Hkind.
    destruct Hop as [-> | ->]; reflexivity.
Qed.

(** The ports of the specification's scenario C. *)
Example getConnectionId_function_port :
  getConnectionId ∅ "F" (Some fqnFunction) (Some "invokeAsync") dirTarget
  = "F#invoke#target" /\
  getConnectionId ∅ "F" (Some fqnFunction) (Some "invoke") dirTarget
  = "F#invoke#target" /\
  getConnectionId ∅ "Q" None (Some "push") dirSource = "Q#push#source" /\
  getConnectionId ∅ "Q" None None dirSource = "Q#source" /\
  getConnectionId {["A" := true]} "A" (Some fqnFunction) (Some "invoke") dirTarget
  = "A".
Proof. vm_compute. repeat split. Qed.

(** ** [uniqBy] and first-seen order *)

Lemma nameIn_true names name : nameIn names name = true <-> name ∈ names.
Proof.
  unfold nameIn. rewrite existsb_exists, list_elem_of_In. split.
  - intros (y & Hy & Heq). apply String.eqb_eq in Heq. by subst.
  - intros Hin. exists name. split; [exact Hin | apply String.eqb_refl].
Qed.

Lemma filter_filter_both {A : Type} (p q : A -> bool) l :
  List.filter p (List.filter q l) = List.filter (fun y => q y && p y) l.
Proof.
  induction l as [|x l IH]; [reflexivity|].
  cbn. destruct (q x); cbn; [destruct (p x)|]; by rewrite IH.
Qed.

(** The loop of [baseUniq] on names keeps the first occurrences that
    are not already seen. *)
Lemma baseUniq_firstSeen seen l :
  baseUniq (fun inflight => inflight) seen l =
  List.filter (fun y => negb (nameIn seen y)) (firstSeen l).
Proof.
  revert seen. induction l as [|x rest IH]; intros seen; [reflexivity|].
  cbn [baseUniq firstSeen List.filter].
  change (existsb (String.eqb x) seen) with (nameIn seen x).
  rewrite filter_filter_both.
  destruct (nameIn seen x) eqn:Eseen; cbn [negb].
  - rewrite IH. apply List.filter_ext_in. intros y _.
    destruct (String.eqb y x) eqn:Eyx; [|reflexivity].
    apply String.eqb_eq in Eyx. subst y. by rewrite Eseen.
  - f_equal. rewrite IH. apply List.filter_ext. intros y.
    unfold nameIn. cbn [existsb]. rewrite negb_orb. reflexivity.
Qed.

Lemma uniqBy_firstSeen l : uniqBy l (fun inflight => inflight) = firstSeen l.
Proof.
  unfold uniqBy. rewrite baseUniq_firstSeen.
  induction (firstSeen l) as [|x xs IH]; [reflexivity|].
  change (x :: List.filter (fun y => negb (nameIn [] y)) xs = x :: xs).
  by rewrite IH.
Qed.

Lemma firstSeen_elem l x : x ∈ firstSeen l <-> x ∈ l.
Proof.
  induction l as [|y rest IH]; [reflexivity|].
  cbn [firstSeen]. rewrite !elem_of_cons, <- IH.
  rewrite !list_elem_of_In, List.filter_In, negb_true_iff, String.eqb_neq.
  destruct (decide (x = y)); tauto.
Qed.

Lemma NoDup_List_filter {A : Type} (p : A -> bool) l :
  NoDup l -> NoDup (List.filter p l).
Proof.
  induction 1 as [|x l Hx Hnd IH]; cbn; [constructor|].
  destruct (p x); [|exact IH].
  constructor; [|exact IH].
  rewrite list_elem_of_In, List.filter_In. rewrite list_elem_of_In in Hx. tauto.
Qed.

Lemma firstSeen_NoDup l : NoDup (firstSeen l).
Proof.
  induction l as [|x rest IH]; cbn [firstSeen]; constructor.
  - rewrite list_elem_of_In, List.filter_In, negb_true_iff, String.eqb_neq. tauto.
  - by apply NoDup_List_filter.
Qed.

(** First-seen order of a concatenation: the first list, then what
    the second adds. *)
Lemma firstSeen_app l1 l2 :
  firstSeen (l1 ++ l2) =
  firstSeen l1 ++ List.filter (fun y => negb (nameIn l1 y)) (firstSeen l2).
Proof.
  induction l1 as [|x rest IH].
  - cbn [app firstSeen]. induction (firstSeen l2) as [|y ys IHy]; [reflexivity|].
    change (y :: ys = y :: List.filter (fun y => negb (nameIn [] y)) ys).
    by rewrite <- IHy.
  - cbn [app firstSeen]. rewrite IH. f_equal.
    rewrite List.filter_app. f_equal.
    rewrite filter_filter_both. apply List.filter_ext. intros y.
    unfold nameIn. cbn [existsb]. rewrite negb_orb. apply andb_comm.
Qed.

(** ** [getNodeInflights] *)

Lemma operationAt_Some nodePath side c name :
  operationAt nodePath side c = Some name <->
  name <> EmptyString /\
  Conn.id (side c) = nodePath /\ Conn.operation (side c) = Some name.
Proof.
  unfold operationAt.
  destruct (decide (Conn.id (side c) = nodePath)) as [Hid | Hid].
  - destruct (Conn.operation (side c)) as [op|].
    + destruct (decide (op = EmptyString)) as [Hop | Hop].
      * split; [discriminate|]. intros (Hne & _ & [= <-]). done.
      * split; [intros [= <-]; done|]. intros (_ & _ & Heq). exact Heq.
    + split; [discriminate|]. intros (_ & _ & Heq). discriminate.
  - split; [discriminate|]. intros (_ & Heq & _). done.
Qed.

(** The loops push the contributed names in the order of the list. *)
Lemma pushOperations_omap nodePath side cs :
  pushOperations side (List.filter (atNode nodePath side) cs) =
  omap (operationAt nodePath side) cs.
Proof.
  induction cs as [|c rest IH]; [reflexivity|].
  cbn [List.filter omap list_omap]. unfold atNode at 1, operationAt at 1.
  destruct (String.eqb (Conn.id (side c)) nodePath) eqn:Eid.
  - apply String.eqb_eq in Eid. rewrite decide_True by exact Eid.
    cbn [pushOperations].
    destruct (Conn.operation (side c)) as [op|]; [|exact IH].
    cbn [truthyString].
    destruct (String.eqb op EmptyString) eqn:Eop; cbn [negb].
    + apply String.eqb_eq in Eop. rewrite decide_True by exact Eop. exact IH.
    + apply String.eqb_neq in Eop. rewrite decide_False by exact Eop.
      by rewrite IH.
  - apply String.eqb_neq in Eid. rewrite decide_False by exact Eid. exact IH.
Qed.

(** What is pushed: the non-empty names used at that end. *)
Lemma operationAt_elem nodePath side cs name :
  name ∈ omap (operationAt nodePath side) cs <->
  name <> EmptyString /\ usedAt nodePath side cs name.
Proof.
  unfold usedAt. rewrite list_elem_of_omap. split.
  - intros (c & Hin & Hc). apply operationAt_Some in Hc as (Hne & Hid & Hop).
    split; [exact Hne|]. by exists c.
  - intros (Hne & c & Hin & Hid & Hop). exists c. split; [exact Hin|].
    by apply operationAt_Some.
Qed.

Lemma occupied_true nodePath side name cs :
  occupied nodePath side name cs = true <-> usedAt nodePath side cs name.
Proof.
  unfold occupied, usedAt. rewrite existsb_exists. split.
  - intros (c & Hin & Hc). apply andb_true_iff in Hc as [Hid Hop].
    apply String.eqb_eq in Hid. apply optionIs_true in Hop.
    exists c. by rewrite list_elem_of_In.
  - intros (c & Hin & Hid & Hop). exists c. rewrite <- list_elem_of_In.
    split; [exact Hin|]. apply andb_true_iff.
    by rewrite String.eqb_eq, optionIs_true.
Qed.

(** The names of the records, in order. *)
Lemma getNodeInflights_names node cs :
  map Inflight.name (getNodeInflights node cs) =
  firstSeen (omap (operationAt (path node) Conn.target) cs
             ++ omap (operationAt (path node) Conn.source) cs).
Proof.
  unfold getNodeInflights.
  rewrite uniqBy_firstSeen, !pushOperations_omap, map_map. cbn.
  apply map_id.
Qed.

Lemma getNodeInflights_elem node cs r :
  r ∈ getNodeInflights node cs ->
  Inflight.id r = path node +:+ "#" +:+ Inflight.name r /\
  Inflight.sourceOccupied r =
    occupied (path node) Conn.source (Inflight.name r) cs /\
  Inflight.targetOccupied r =
    occupied (path node) Conn.target (Inflight.name r) cs.
Proof.
  unfold getNodeInflights. intros Hin.
  apply list_elem_of_fmap in Hin as (name & -> & _). cbn. done.
Qed.

Lemma usedAt_isEndpoint nodePath cs name :
  usedAt nodePath Conn.target cs name \/ usedAt nodePath Conn.source cs name ->
  isEndpoint cs nodePath.
Proof.
  intros [(c & Hin & Hid & _) | (c & Hin & Hid & _)]; exists c; tauto.
Qed.

Lemma inflight_names_elem node cs name :
  name ∈ map Inflight.name (getNodeInflights node cs) <->
  name <> EmptyString /\
  (usedAt (path node) Conn.target cs name \/ usedAt (path node) Conn.source cs name).
Proof.
  rewrite getNodeInflights_names, firstSeen_elem, elem_of_app.
  rewrite !operationAt_elem. tauto.
Qed.

(** C2.  The inflight records of a node carry, once each, the
    non-empty operation names used at the node's end of a connection
    of the list: first the names used at a target end, in first-seen
    order, then the names only used at a source end.  A record's id
    is [path#name]; it is source-occupied exactly when a connection
    has the node as source with that operation, and target-occupied
    likewise.  A node that no connection touches has no record. *)
Theorem getNodeInflights_spec (node : ConstructTreeNode)
    (cs : list Conn.Connection) :
  NoDup (map Inflight.name (getNodeInflights node cs)) /\
  (forall name,
     name ∈ map Inflight.name (getNodeInflights node cs) <->
     name <> EmptyString /\
     (usedAt (path node) Conn.target cs name
      \/ usedAt (path node) Conn.source cs name)) /\
  map Inflight.name (getNodeInflights node cs) =
    firstSeen (omap (operationAt (path node) Conn.target) cs)
    ++ List.filter
         (fun name =>
            negb (nameIn (omap (operationAt (path node) Conn.target) cs) name))
         (firstSeen (omap (operationAt (path node) Conn.source) cs)) /\
  (forall r, r ∈ getNodeInflights node cs ->
     Inflight.id r = path node +:+ "#" +:+ Inflight.name r /\
     (Inflight.sourceOccupied r = true <->
      usedAt (path node) Conn.source cs (Inflight.name r)) /\
     (Inflight.targetOccupied r = true <->
      usedAt (path node) Conn.target cs (Inflight.name r))) /\
  (~ isEndpoint cs (path node) -> getNodeInflights node cs = []).
Proof.
  split; [|split; [|split; [|split]]].
  - rewrite getNodeInflights_names. apply firstSeen_NoDup.
  - apply inflight_names_elem.
  - rewrite getNodeInflights_names. apply firstSeen_app.
  - intros r Hr.
    destruct (getNodeInflights_elem node cs r Hr) as (Hid & Hsrc & Htgt).
    split; [exact Hid|].
    rewrite Hsrc, Htgt. split; apply occupied_true.
  - intros Hnone.
    destruct (getNodeInflights node cs) as [|r rest] eqn:E; [reflexivity|].
    exfalso. apply Hnone.
    apply (usedAt_isEndpoint _ _ (Inflight.name r)).
    apply (inflight_names_elem node cs). rewrite E. cbn. apply list_elem_of_here.
Qed.

(** The records of [Y] among the example connections: [get] is used at
    both ends and gives one record. *)
Example getNodeInflights_example :
  getNodeInflights exampleY exampleBridged =
  [Inflight.mk "root/Default/Y#get" "get" true true;
   Inflight.mk "root/Default/Y#list" "list" false true;
   Inflight.mk "root/Default/Y#put" "put" true false].
Proof. vm_compute. reflexivity. Qed.

(** [S] is at no end of the example connections. *)
Example getNodeInflights_untouched_example :
  getNodeInflights (leafNode "root/Default/S" (Some fqnSchedule) None)
                   exampleBridged = [].
Proof. vm_compute. reflexivity. Qed.

(** C10.  A record is only made for a non-empty operation name used
    at the node's end of a connection.  When every connection that
    touches the node has no operation there ([undefined] or the empty
    string), the node has no record, although it takes part in
    connections. *)
Theorem getNodeInflights_named_only (node : ConstructTreeNode)
    (cs : list Conn.Connection) :
  (forall r, r ∈ getNodeInflights node cs ->
     Inflight.name r <> EmptyString /\
     (usedAt (path node) Conn.target cs (Inflight.name r)
      \/ usedAt (path node) Conn.source cs (Inflight.name r))) /\
  ((forall c, c ∈ cs ->
      (Conn.id (Conn.target c) = path node -> operationAbsent (Conn.target c)) /\
      (Conn.id (Conn.source c) = path node -> operationAbsent (Conn.source c))) ->
   getNodeInflights node cs = []).
Proof.
  split.
  - intros r Hr. apply (inflight_names_elem node cs).
    by apply (list_elem_of_fmap_2 Inflight.name).
  - intros Habsent.
    destruct (getNodeInflights node cs) as [|r rest] eqn:E; [reflexivity|].
    exfalso.
    assert (Inflight.name r ∈ map Inflight.name (getNodeInflights node cs)) as Hin
      by (rewrite E; cbn; apply list_elem_of_here).
    apply inflight_names_elem in Hin as [Hne [Hused | Hused]];
      destruct Hused as (c & Hc & Hid & Hop);
      destruct (Habsent c Hc) as [Ht Hs].
    + destruct (Ht Hid) as [Hnone | Hempty]; congruence.
    + destruct (Hs Hid) as [Hnone | Hempty]; congruence.
Qed.

(** [Y] takes part in both example connections and has no record. *)
Example getNodeInflights_unnamed_example :
  hasConnection (Some exampleUnnamed) (path exampleY) = true /\
  getNodeInflights exampleY exampleUnnamed = [] /\
  getNodeType exampleY (hasConnection (Some exampleUnnamed) (path exampleY))
  = construct.
Proof. vm_compute. repeat split. Qed.

(** ** [nodeInfo] *)

Lemma connections_Some bridge tree rcs :
  connections bridge (Some tree) (Some rcs) =
  Some (bridge (bridgerInput (processNodeFqn tree ∅) rcs)
               (fun node => isNodeHidden (hiddenMap (Some tree)) (Conn.id node))
               (fun node => Conn.id node)
               bridgeConnectionId).
Proof. reflexivity. Qed.

(** C5 (amended).  With unique paths, the descriptor map holds one
    descriptor per node of the tree.  Its tag is the role the
    classifier gives the node, participation being in the bridged
    connections, when that role is [container], [autoId] or
    [function]; a node classified [scheduler], [endpoint] or
    [construct] gets a [construct] descriptor.  A [container]
    descriptor carries the child paths in order and a [construct]
    descriptor carries the node's inflight records. *)
Theorem nodeInfo_descriptor (bridge : Bridger) tree rcs node :
  NoDup (map path (subnodes tree)) ->
  node ∈ subnodes tree ->
  exists info bridged descriptor,
    nodeInfo bridge (Some tree) (Some rcs) = Some info /\
    connections bridge (Some tree) (Some rcs) = Some bridged /\
    info !! path node = Some descriptor /\
    (getNodeType node (hasConnection (Some bridged) (path node)) = container ->
     descriptor = V2container (map path (childNodes node))) /\
    (getNodeType node (hasConnection (Some bridged) (path node)) = autoId ->
     descriptor = V2autoId) /\
    (getNodeType node (hasConnection (Some bridged) (path node)) = function ->
     descriptor = V2function) /\
    (getNodeType node (hasConnection (Some bridged) (path node)) = scheduler
     \/ getNodeType node (hasConnection (Some bridged) (path node)) = endpoint
     \/ getNodeType node (hasConnection (Some bridged) (path node)) = construct ->
     descriptor = V2construct (getNodeInflights node bridged)).
Proof.
  intros Hnd Hin.
  eexists _, _, (descriptorOf (connections bridge (Some tree) (Some rcs)) node).
  split; [reflexivity|].
  split; [apply connections_Some|].
  split.
  - rewrite processNodeInfo_replay.
    exact (replay_subnodes_lookup
             (descriptorOf (connections bridge (Some tree) (Some rcs)))
             _ _ Hnd Hin).
  - rewrite connections_Some. unfold descriptorOf.
    destruct (getNodeType node _); repeat split; try discriminate; try reflexivity.
    all: intros [H | [H | H]]; (discriminate || reflexivity).
Qed.

Lemma nodeInfo_descriptor_witness :
  exists info bridged descriptor,
    nodeInfo (bridgeConnections dropLastSegment)
             (Some exampleTree) (Some exampleCalls) = Some info /\
    connections (bridgeConnections dropLastSegment)
                (Some exampleTree) (Some exampleCalls) = Some bridged /\
    info !! path exampleY = Some descriptor /\
    (getNodeType exampleY (hasConnection (Some bridged) (path exampleY)) = container ->
     descriptor = V2container (map path (childNodes exampleY))) /\
    (getNodeType exampleY (hasConnection (Some bridged) (path exampleY)) = autoId ->
     descriptor = V2autoId) /\
    (getNodeType exampleY (hasConnection (Some bridged) (path exampleY)) = function ->
     descriptor = V2function) /\
    (getNodeType exampleY (hasConnection (Some bridged) (path exampleY)) = scheduler
     \/ getNodeType exampleY (hasConnection (Some bridged) (path exampleY)) = endpoint
     \/ getNodeType exampleY (hasConnection (Some bridged) (path exampleY)) = construct ->
     descriptor = V2construct (getNodeInflights exampleY bridged)).
Proof.
  apply (nodeInfo_descriptor (bridgeConnections dropLastSegment)
           exampleTree exampleCalls exampleY).
  - apply (bool_decide_unpack _). vm_compute. exact I.
  - cbn. do 4 apply list_elem_of_further. apply list_elem_of_here.
Defined.

(** C5 as stated fails.  The schedule [S] is classified [scheduler]
    in the role map and in the classifier, and its descriptor is a
    [construct] with an inflight list. *)
Lemma nodeInfo_scheduler_counterexample :
  exists roles info,
    nodeTypes (Some exampleTree) (Some exampleCalls) = Some roles /\
    nodeInfo (bridgeConnections dropLastSegment)
             (Some exampleTree) (Some exampleCalls) = Some info /\
    roles !! "root/Default/S" = Some scheduler /\
    info !! "root/Default/S" = Some (V2construct []) /\
    typeOf <$> info !! "root/Default/S" <> Some scheduler.
Proof.
  eexists _, _.
  split; [reflexivity|].
  split; [reflexivity|].
  vm_compute. repeat split. discriminate.
Qed.

(** On the example: a container with its children, a function, and a
    node made a [construct] by its bridged connections. *)
Example nodeInfo_example :
  (nodeInfo (bridgeConnections dropLastSegment)
            (Some exampleTree) (Some exampleCalls)
     ≫= fun info => info !! "root/Default/X")
  = Some (V2container ["root/Default/X/c"]) /\
  (nodeInfo (bridgeConnections dropLastSegment)
            (Some exampleTree) (Some exampleCalls)
     ≫= fun info => info !! "root/Default/F")
  = Some V2function /\
  (nodeInfo (bridgeConnections dropLastSegment)
            (Some exampleTree) (Some exampleCalls)
     ≫= fun info => info !! "root/Default/Y")
  = Some (V2construct
            [Inflight.mk "root/Default/Y#get" "get" false true;
             Inflight.mk "root/Default/Y#call" "call" true false]).
Proof. vm_compute. repeat split. Qed.

(** ** [edges] *)

(** C3 (amended).  The final edge list has one edge per bridged
    connection, in the order of the bridged connections.  The edge of
    a connection has the id [sourcePort##targetPort], the single
    source [sourcePort] and the single target [targetPort], where the
    ports are those of the connection's two endpoints.  The list is
    not deduplicated by edge id. *)
Theorem edges_per_connection (bridge : Bridger) tree rcs :
  exists bridged,
    connections bridge (Some tree) (Some rcs) = Some bridged /\
    length (edges bridge (Some tree) (Some rcs)) = length bridged /\
    forall i connection,
      bridged !! i = Some connection ->
      exists sourcePort targetPort,
        sourcePort =
          getConnectionId (hiddenMap (Some tree))
            (Conn.id (Conn.source connection))
            (Conn.nodeFqn (Conn.source connection))
            (Conn.operation (Conn.source connection)) dirSource /\
        targetPort =
          getConnectionId (hiddenMap (Some tree))
            (Conn.id (Conn.target connection))
            (Conn.nodeFqn (Conn.target connection))
            (Conn.operation (Conn.target connection)) dirTarget /\
        edges bridge (Some tree) (Some rcs) !! i =
          Some (Edge.mk (sourcePort +:+ "##" +:+ targetPort)
                        [sourcePort] [targetPort]).
Proof.
  eexists. split; [apply connections_Some|].
  unfold edges. rewrite connections_Some.
  split; [apply length_map|].
  intros i connection Hi. eexists _, _.
  split; [reflexivity|]. split; [reflexivity|].
  change (map ?f ?l) with (f <$> l).
  rewrite list_lookup_fmap, Hi. reflexivity.
Qed.

(** C3 as stated fails.  The two calls of [Y] into the function [F]
    differ in the operation at [F], so they are two bridged
    connections; both ends get the same ports, and the edge list holds
    the same id twice. *)
Lemma edges_duplicate_id_counterexample :
  connections (bridgeConnections dropLastSegment)
              (Some exampleTree) (Some exampleCalls)
  = Some
      [Conn.mk (Conn.mkEndpoint "root/Default/Y" None (Some "call"))
               (Conn.mkEndpoint "root/Default/F" (Some fqnFunction) (Some "invoke"));
       Conn.mk (Conn.mkEndpoint "root/Default/Y" None (Some "call"))
               (Conn.mkEndpoint "root/Default/F" (Some fqnFunction) (Some "handle"));
       Conn.mk (Conn.mkEndpoint "root/Default" None (Some "call"))
               (Conn.mkEndpoint "root/Default/Y" None (Some "get"))] /\
  map Edge.id (edges (bridgeConnections dropLastSegment)
                     (Some exampleTree) (Some exampleCalls))
  = ["root/Default/Y#call#source##root/Default/F#invoke#target";
     "root/Default/Y#call#source##root/Default/F#invoke#target";
     "root/Default#call#source##root/Default/Y#get#target"] /\
  ~ NoDup (map Edge.id (edges (bridgeConnections dropLastSegment)
                              (Some exampleTree) (Some exampleCalls))).
Proof.
  assert (map Edge.id (edges (bridgeConnections dropLastSegment)
                             (Some exampleTree) (Some exampleCalls))
          = ["root/Default/Y#call#source##root/Default/F#invoke#target";
             "root/Default/Y#call#source##root/Default/F#invoke#target";
             "root/Default#call#source##root/Default/Y#get#target"]) as Hids
    by (vm_compute; reflexivity).
  split; [vm_compute; reflexivity|].
  split; [exact Hids|].
  rewrite Hids. intros Hnd. apply NoDup_cons in Hnd as [Hfresh _].
  apply Hfresh. apply list_elem_of_here.
Qed.

(** ** The deferred-invocation filter *)

Lemma notInvokeAsync_false r :
  Raw.sourceOp r = Some "invokeAsync" \/ Raw.targetOp r = Some "invokeAsync" ->
  notInvokeAsync r = false.
Proof.
  unfold notInvokeAsync. intros [H | H]; rewrite H; cbn; [reflexivity|].
  apply andb_false_r.
Qed.

Lemma bridgerInput_drop fqns before r after :
  Raw.sourceOp r = Some "invokeAsync" \/ Raw.targetOp r = Some "invokeAsync" ->
  bridgerInput fqns (before ++ r :: after) = bridgerInput fqns (before ++ after).
Proof.
  intros Hr. unfold bridgerInput. rewrite !List.filter_app. cbn [List.filter].
  by rewrite (notInvokeAsync_false r Hr).
Qed.

(** C7.  A raw connection whose source or target operation is
    ["invokeAsync"] does not reach the bridger: whatever the bridger
    is, the bridged connections, the final edges and the descriptors
    with their inflight records are those of the raw list without that
    connection, and no connection handed to the bridger carries that
    operation. *)
Theorem invokeAsync_excluded (bridge : Bridger) rawTree before r after :
  Raw.sourceOp r = Some "invokeAsync" \/ Raw.targetOp r = Some "invokeAsync" ->
  (forall fqns,
     bridgerInput fqns (before ++ r :: after) = bridgerInput fqns (before ++ after) /\
     Forall (fun c =>
               Conn.operation (Conn.source c) <> Some "invokeAsync" /\
               Conn.operation (Conn.target c) <> Some "invokeAsync")
            (bridgerInput fqns (before ++ r :: after))) /\
  connections bridge rawTree (Some (before ++ r :: after)) =
  connections bridge rawTree (Some (before ++ after)) /\
  edges bridge rawTree (Some (before ++ r :: after)) =
  edges bridge rawTree (Some (before ++ after)) /\
  nodeInfo bridge rawTree (Some (before ++ r :: after)) =
  nodeInfo bridge rawTree (Some (before ++ after)).
Proof.
  intros Hr.
  assert (connections bridge rawTree (Some (before ++ r :: after)) =
          connections bridge rawTree (Some (before ++ after))) as Hconn.
  { unfold connections. destruct (nodeFqns rawTree) as [fqns|]; [|reflexivity].
    by rewrite (bridgerInput_drop fqns before r after Hr). }
  split; [|split; [exact Hconn | split]].
  - intros fqns. split; [by apply bridgerInput_drop|].
    unfold bridgerInput. apply Forall_forall. intros c Hc.
    apply list_elem_of_fmap in Hc as (raw & -> & Hraw).
    apply list_elem_of_In, List.filter_In in Hraw as [_ Hkeep].
    unfold notInvokeAsync in Hkeep.
    apply andb_true_iff in Hkeep as [Hs Ht].
    apply negb_true_iff, optionIs_false in Hs.
    apply negb_true_iff, optionIs_false in Ht.
    cbn. done.
  - unfold edges. by rewrite Hconn.
  - unfold nodeInfo. destruct rawTree as [tree|]; [|reflexivity].
    by rewrite Hconn.
Qed.

Lemma invokeAsync_excluded_witness :
  (forall fqns,
     bridgerInput fqns ([] ++ exampleAsync
                           :: exampleCalls)
     = bridgerInput fqns ([] ++ exampleCalls) /\
     Forall (fun c =>
               Conn.operation (Conn.source c) <> Some "invokeAsync" /\
               Conn.operation (Conn.target c) <> Some "invokeAsync")
            (bridgerInput fqns
               ([] ++ exampleAsync
                   :: exampleCalls))) /\
  connections (bridgeConnections dropLastSegment) (Some exampleTree)
    (Some ([] ++ exampleAsync :: exampleCalls))
  = connections (bridgeConnections dropLastSegment) (Some exampleTree)
      (Some ([] ++ exampleCalls)) /\
  edges (bridgeConnections dropLastSegment) (Some exampleTree)
    (Some ([] ++ exampleAsync :: exampleCalls))
  = edges (bridgeConnections dropLastSegment) (Some exampleTree)
      (Some ([] ++ exampleCalls)) /\
  nodeInfo (bridgeConnections dropLastSegment) (Some exampleTree)
    (Some ([] ++ exampleAsync :: exampleCalls))
  = nodeInfo (bridgeConnections dropLastSegment) (Some exampleTree)
      (Some ([] ++ exampleCalls)).
Proof.
  apply (invokeAsync_excluded (bridgeConnections dropLastSegment)
           (Some exampleTree) []
           exampleAsync exampleCalls).
  left. reflexivity.
Defined.

(** ** The bridger *)

Lemma baseUniq_subset {A : Type} (iteratee : A -> string) seen (l : list A) x :
  x ∈ baseUniq iteratee seen l -> x ∈ l.
Proof.
  revert seen. induction l as [|y rest IH]; intros seen Hin; [exact Hin|].
  cbn [baseUniq] in Hin.
  destruct (existsb (String.eqb (iteratee y)) seen).
  - apply list_elem_of_further. by apply (IH seen).
  - apply elem_of_cons in Hin as [-> | Hin]; [apply list_elem_of_here|].
    apply list_elem_of_further. by apply (IH (iteratee y :: seen)).
Qed.

Lemma dropLastSegment_shorter p q :
  dropLastSegment p = Some q -> String.length q < String.length p.
Proof.
  revert q. induction p as [|c rest IH]; intros q; [discriminate|].
  cbn [dropLastSegment].
  destruct (dropLastSegment rest) as [prefix|].
  - intros [= <-]. cbn. specialize (IH prefix eq_refl). lia.
  - destruct (Ascii.eqb c "/"); [|discriminate].
    intros [= <-]. cbn. lia.
Qed.

Section BridgeSound.

Variable parentPath : string -> option string.
Variable isHidden : string -> bool.

Hypothesis parent_shorter :
  forall p q, parentPath p = Some q -> String.length q < String.length p.
Hypothesis root_visible :
  forall p, parentPath p = None -> isHidden p = false.

(** With fuel for the whole path, the loop ends on the nearest
    visible ancestor. *)
Lemma ascend_nearest fuel p :
  String.length p <= fuel ->
  nearestVisible parentPath isHidden p (ascend parentPath fuel isHidden p).
Proof.
  revert p. induction fuel as [|fuel IH]; intros p Hlen.
  - cbn [ascend]. destruct (isHidden p) eqn:Ehid; [|by constructor].
    destruct (parentPath p) as [parent|] eqn:Eparent.
    + apply parent_shorter in Eparent. lia.
    + apply root_visible in Eparent. congruence.
  - cbn [ascend]. destruct (isHidden p) eqn:Ehid; [|by constructor].
    destruct (parentPath p) as [parent|] eqn:Eparent.
    + apply (nearest_up parentPath isHidden p parent); [done | done |].
      apply IH. apply parent_shorter in Eparent. lia.
    + apply root_visible in Eparent. congruence.
Qed.

Lemma nearestVisible_visible p nearest :
  nearestVisible parentPath isHidden p nearest -> isHidden nearest = false.
Proof. induction 1; assumption. Qed.

Lemma bridgeEndpoint_nearest node :
  nearestVisible parentPath isHidden (Conn.id node)
    (Conn.id (bridgeEndpoint parentPath
                (fun e => isHidden (Conn.id e)) Conn.id node)) /\
  Conn.operation (bridgeEndpoint parentPath
                    (fun e => isHidden (Conn.id e)) Conn.id node)
  = Conn.operation node.
Proof.
  unfold bridgeEndpoint. cbn [Conn.id Conn.operation].
  split; [|reflexivity].
  apply (ascend_nearest (String.length (Conn.id node)) (Conn.id node)). lia.
Qed.

End BridgeSound.

(** C8.  When a parent path is shorter than its child and the root is
    visible, every connection the bridger returns comes from an input
    connection whose two endpoints were each replaced by their nearest
    visible ancestor, the operations being kept: both endpoint ids are
    paths for which [isHidden] is false, and the source id differs from
    the target id. *)
Theorem bridgeConnections_sound (parentPath : string -> option string)
    (isHidden : string -> bool) (getConnectionId : Conn.Connection -> string)
    (cs : list Conn.Connection) :
  (forall p q, parentPath p = Some q -> String.length q < String.length p) ->
  (forall p, parentPath p = None -> isHidden p = false) ->
  Forall
    (fun bridged =>
       isHidden (Conn.id (Conn.source bridged)) = false /\
       isHidden (Conn.id (Conn.target bridged)) = false /\
       Conn.id (Conn.source bridged) <> Conn.id (Conn.target bridged) /\
       exists raw,
         raw ∈ cs /\
         nearestVisible parentPath isHidden
           (Conn.id (Conn.source raw)) (Conn.id (Conn.source bridged)) /\
         nearestVisible parentPath isHidden
           (Conn.id (Conn.target raw)) (Conn.id (Conn.target bridged)) /\
         Conn.operation (Conn.source bridged) = Conn.operation (Conn.source raw) /\
         Conn.operation (Conn.target bridged) = Conn.operation (Conn.target raw))
    (bridgeConnections parentPath cs
       (fun node => isHidden (Conn.id node)) Conn.id getConnectionId).
Proof.
  intros Hshorter Hroot. apply Forall_forall. intros bridged Hin.
  unfold bridgeConnections, uniqBy in Hin.
  apply baseUniq_subset in Hin.
  apply list_elem_of_In, List.filter_In in Hin as [Hin Hloop].
  apply negb_true_iff, String.eqb_neq in Hloop.
  apply List.in_map_iff in Hin as (raw & <- & Hraw).
  cbn [Conn.source Conn.target] in *.
  destruct (bridgeEndpoint_nearest parentPath isHidden Hshorter Hroot
              (Conn.source raw)) as [Hs Hsop].
  destruct (bridgeEndpoint_nearest parentPath isHidden Hshorter Hroot
              (Conn.target raw)) as [Ht Htop].
  split; [exact (nearestVisible_visible parentPath isHidden _ _ Hs)|].
  split; [exact (nearestVisible_visible parentPath isHidden _ _ Ht)|].
  split; [exact Hloop|].
  exists raw. split; [by apply list_elem_of_In|]. done.
Qed.

Lemma exampleHidden_root_visible p :
  dropLastSegment p = None -> exampleHidden p = false.
Proof.
  intros Hroot. destruct (exampleHidden p) eqn:Ehid; [|reflexivity].
  unfold exampleHidden in Ehid.
  apply orb_true_iff in Ehid as [E | E]; apply String.eqb_eq in E; subst p;
    vm_compute in Hroot; discriminate.
Qed.

Lemma bridgeConnections_sound_witness :
  Forall
    (fun bridged =>
       exampleHidden (Conn.id (Conn.source bridged)) = false /\
       exampleHidden (Conn.id (Conn.target bridged)) = false /\
       Conn.id (Conn.source bridged) <> Conn.id (Conn.target bridged) /\
       exists raw,
         raw ∈ exampleInput /\
         nearestVisible dropLastSegment exampleHidden
           (Conn.id (Conn.source raw)) (Conn.id (Conn.source bridged)) /\
         nearestVisible dropLastSegment exampleHidden
           (Conn.id (Conn.target raw)) (Conn.id (Conn.target bridged)) /\
         Conn.operation (Conn.source bridged) = Conn.operation (Conn.source raw) /\
         Conn.operation (Conn.target bridged) = Conn.operation (Conn.target raw))
    (bridgeConnections dropLastSegment exampleInput
       (fun node => exampleHidden (Conn.id node)) Conn.id bridgeConnectionId).
Proof.
  apply (bridgeConnections_sound dropLastSegment exampleHidden
           bridgeConnectionId exampleInput).
  - exact dropLastSegment_shorter.
  - exact exampleHidden_root_visible.
Defined.

(** The example: the call out of the hidden subtree is credited to the
    application node, and exact duplicates are kept once. *)
Example bridgeConnections_example :
  bridgeConnections dropLastSegment (exampleInput ++ exampleInput)
    (fun node => exampleHidden (Conn.id node)) Conn.id bridgeConnectionId
  = [Conn.mk (Conn.mkEndpoint "root/Default/Y" None (Some "call"))
             (Conn.mkEndpoint "root/Default/F" (Some fqnFunction) (Some "invoke"));
     Conn.mk (Conn.mkEndpoint "root/Default/Y" None (Some "call"))
             (Conn.mkEndpoint "root/Default/F" (Some fqnFunction) (Some "handle"));
     Conn.mk (Conn.mkEndpoint "root/Default" None (Some "call"))
             (Conn.mkEndpoint "root/Default/Y" None (Some "get"))].
Proof. vm_compute. reflexivity. Qed.

(** The service hands [exampleInput] to the bridger for
    [exampleCalls]. *)
Example bridgerInput_example :
  bridgerInput (processNodeFqn exampleTree ∅) exampleCalls = exampleInput.
Proof. vm_compute. reflexivity. Qed.

(** ** More on the visibility map *)

Lemma subnodes_self node : node ∈ subnodes node.
Proof. destruct node. cbn. apply list_elem_of_here. Qed.

Lemma forest_elem kvs n :
  n ∈ forest kvs <-> exists kv, kv ∈ kvs /\ n ∈ subnodes (snd kv).
Proof.
  unfold forest. rewrite list_elem_of_In, in_flat_map. split.
  - intros (kv & Hkv & Hn). exists kv. by rewrite !list_elem_of_In.
  - intros (kv & Hkv & Hn). exists kv. by rewrite <- !list_elem_of_In.
Qed.

Lemma subnodes_elem root n :
  n ∈ subnodes root <-> n = root \/ n ∈ forest (children root).
Proof. destruct root as [p f h cs]. cbn [subnodes children]. apply elem_of_cons. Qed.

(** Descendants of a descendant are descendants. *)
Lemma subnodes_trans root a n :
  a ∈ subnodes root -> n ∈ subnodes a -> n ∈ subnodes root.
Proof.
  induction root as [p f h cs IH] using ConstructTreeNode_tree_ind.
  intros Ha Hn. apply subnodes_elem in Ha as [-> | Ha]; [exact Hn|].
  apply subnodes_elem. right. cbn [children] in *.
  apply forest_elem in Ha as (kv & Hkv & Ha).
  apply forest_elem. exists kv. split; [exact Hkv|].
  rewrite Forall_forall in IH. by apply (IH kv Hkv).
Qed.

Lemma hiddenWrites_elem root force p v :
  (p, v) ∈ hiddenWrites root force <->
  (p = path root /\ v = (force || truthy (hidden root)))
  \/ exists kv, kv ∈ children root /\
       (p, v) ∈ hiddenWrites (snd kv) (force || truthy (hidden root)).
Proof.
  destruct root as [p0 f h cs]. cbn [hiddenWrites children path hidden].
  rewrite elem_of_cons, list_elem_of_In, in_flat_map. split.
  - intros [[= -> ->] | (kv & Hkv & Hw)]; [by left|].
    right. exists kv. by rewrite !list_elem_of_In.
  - intros [[-> ->] | (kv & Hkv & Hw)]; [by left|].
    right. exists kv. by rewrite <- !list_elem_of_In.
Qed.

(** Below a forced traversal everything is written hidden. *)
Lemma hiddenWrites_forced root n :
  n ∈ subnodes root -> (path n, true) ∈ hiddenWrites root true.
Proof.
  induction root as [p f h cs IH] using ConstructTreeNode_tree_ind.
  intros Hn. apply hiddenWrites_elem.
  apply subnodes_elem in Hn as [-> | Hn]; [by left|].
  right. cbn [children hidden] in *.
  apply forest_elem in Hn as (kv & Hkv & Hn).
  exists kv. split; [exact Hkv|].
  rewrite Forall_forall in IH. by apply (IH kv Hkv).
Qed.

(** A declared flag reaches every descendant. *)
Lemma hiddenWrites_complete root force a n :
  a ∈ subnodes root -> hidden a = Some true -> n ∈ subnodes a ->
  (path n, true) ∈ hiddenWrites root force.
Proof.
  revert force.
  induction root as [p f h cs IH] using ConstructTreeNode_tree_ind.
  intros force Ha Hhid Hn.
  apply subnodes_elem in Ha as [-> | Ha].
  - cbn [hidden] in Hhid. subst h.
    pose proof (hiddenWrites_forced (mkNode p f (Some true) cs) n Hn) as Hw.
    apply hiddenWrites_elem in Hw. apply hiddenWrites_elem.
    cbn [hidden truthy path children] in *. rewrite orb_true_r.
    exact Hw.
  - apply hiddenWrites_elem. right. cbn [children hidden] in *.
    apply forest_elem in Ha as (kv & Hkv & Ha).
    exists kv. split; [exact Hkv|].
    rewrite Forall_forall in IH. by apply (IH kv Hkv).
Qed.

(** A hidden write is forced from above or comes from a declared flag
    on the way down. *)
Lemma hiddenWrites_sound root force p :
  (p, true) ∈ hiddenWrites root force ->
  force = true \/
  exists a n, a ∈ subnodes root /\ n ∈ subnodes a /\ path n = p
              /\ hidden a = Some true.
Proof.
  revert force.
  induction root as [p0 f h cs IH] using ConstructTreeNode_tree_ind.
  intros force Hw. apply hiddenWrites_elem in Hw.
  cbn [children hidden path] in Hw.
  assert (force || truthy h = true ->
          force = true \/
          exists a n, a ∈ subnodes (mkNode p0 f h cs) /\ n ∈ subnodes a
                      /\ path n = p0 /\ hidden a = Some true) as Hhere.
  { intros Hor. apply orb_true_iff in Hor as [Hf | Hh]; [by left|].
    right. apply truthy_true in Hh.
    exists (mkNode p0 f h cs), (mkNode p0 f h cs).
    repeat split; try apply subnodes_self; done. }
  destruct Hw as [[-> Hv] | (kv & Hkv & Hw)].
  - by apply Hhere.
  - rewrite Forall_forall in IH.
    destruct (IH kv Hkv _ Hw) as [Hforce | (a & n & Ha & Hn & Hp & Hhid)].
    + apply orb_true_iff in Hforce as [Hf | Hh]; [by left|].
      right. apply truthy_true in Hh.
      assert (exists n, n ∈ subnodes (snd kv) /\ path n = p) as (n & Hn & Hp).
      { assert (p ∈ map fst (hiddenWrites (snd kv) (force || truthy h))) as Hk
          by (apply (list_elem_of_fmap_2 fst) in Hw; exact Hw).
        rewrite hiddenWrites_keys in Hk.
        apply list_elem_of_fmap in Hk as (n & -> & Hn). by exists n. }
      exists (mkNode p0 f h cs), n. repeat split; try done.
      * apply subnodes_self.
      * apply subnodes_elem. right. apply forest_elem. by exists kv.
    + right. exists a, n. repeat split; try done.
      apply subnodes_elem. right. apply forest_elem. by exists kv.
Qed.

Lemma forestWrites_elem kvs p v :
  (p, v) ∈ forestWrites kvs <->
  exists kv, kv ∈ kvs /\ (p, v) ∈ hiddenWrites (snd kv) false.
Proof.
  unfold forestWrites. rewrite list_elem_of_In, in_flat_map. split.
  - intros (kv & Hkv & Hw). exists kv. by rewrite !list_elem_of_In.
  - intros (kv & Hkv & Hw). exists kv. by rewrite <- !list_elem_of_In.
Qed.

(** A value read from a replayed map was written or was there before. *)
Lemma replay_lookup_written {V : Type} (ws : list (string * V)) (m : gmap string V) k v :
  replay ws m !! k = Some v -> (k, v) ∈ ws \/ m !! k = Some v.
Proof.
  revert m. induction ws as [|[k' v'] ws IH]; intros m Hk; [by right|].
  change (replay ws (<[k' := v']> m) !! k = Some v) in Hk.
  destruct (IH _ Hk) as [Hin | Hm].
  - left. by apply list_elem_of_further.
  - destruct (decide (k' = k)) as [-> | Hne].
    + rewrite lookup_insert_eq in Hm. inversion Hm; subst. left.
      apply list_elem_of_here.
    + right. by rewrite lookup_insert_ne in Hm.
Qed.

(** With unique paths a path names one node. *)
Lemma unique_path_node (ns : list ConstructTreeNode) n n' :
  NoDup (map path ns) -> n ∈ ns -> n' ∈ ns -> path n = path n' -> n = n'.
Proof.
  induction ns as [|x ns IH]; intros Hnd Hn Hn' Hp; [by apply elem_of_nil in Hn|].
  cbn in Hnd. apply NoDup_cons in Hnd as [Hx Hnd].
  apply elem_of_cons in Hn as [-> | Hn]; apply elem_of_cons in Hn' as [-> | Hn'].
  - reflexivity.
  - exfalso. apply Hx. rewrite Hp. by apply (list_elem_of_fmap_2 path).
  - exfalso. apply Hx. rewrite <- Hp. by apply (list_elem_of_fmap_2 path).
  - by apply IH.
Qed.

(** X1.  With unique paths below the application node, a node there is
    recorded hidden exactly when it or one of its ancestors below the
    application node declares itself hidden, and recorded visible
    otherwise. *)
Theorem hiddenMap_ancestor_declared tree top n :
  pseudoRoot (Some tree) = Some top ->
  NoDup (map path (forest (children top))) ->
  n ∈ forest (children top) ->
  exists v,
    hiddenMap (Some tree) !! path n = Some v /\
    (v = true <->
     exists a, a ∈ forest (children top) /\ n ∈ subnodes a /\ hidden a = Some true).
Proof.
  intros Htop Hnd Hn.
  rewrite (hiddenMap_replay tree top Htop).
  assert (NoDup (map fst (forestWrites (children top)))) as Hkeys
    by (by rewrite forestWrites_keys).
  assert (exists v, (path n, v) ∈ forestWrites (children top)) as (v & Hv).
  { assert (path n ∈ map fst (forestWrites (children top))) as Hk.
    { rewrite forestWrites_keys. by apply (list_elem_of_fmap_2 path). }
    apply list_elem_of_fmap in Hk as ([k v] & Hk & Hw). cbn in Hk. subst k.
    by exists v. }
  exists v. split; [by apply replay_lookup_in|].
  split.
  - intros ->. apply forestWrites_elem in Hv as (kv & Hkv & Hw).
    apply hiddenWrites_sound in Hw as [Hf | (a & n' & Ha & Hn' & Hp & Hhid)];
      [discriminate|].
    assert (a ∈ forest (children top)) as Ha'
      by (apply forest_elem; by exists kv).
    assert (n' ∈ forest (children top)) as Hn''.
    { apply forest_elem. exists kv. split; [exact Hkv|].
      by apply (subnodes_trans _ a). }
    assert (n' = n) as -> by (by apply (unique_path_node _ _ _ Hnd Hn'' Hn)).
    by exists a.
  - intros (a & Ha & Hna & Hhid).
    apply forest_elem in Ha as (kv & Hkv & Ha).
    assert ((path n, true) ∈ forestWrites (children top)) as Htrue.
    { apply forestWrites_elem. exists kv. split; [exact Hkv|].
      by apply (hiddenWrites_complete _ _ a). }
    pose proof (replay_lookup_in _ ∅ _ _ Hkeys Hv) as E1.
    pose proof (replay_lookup_in _ ∅ _ _ Hkeys Htrue) as E2.
    congruence.
Qed.

Lemma hiddenMap_ancestor_declared_witness :
  exists v,
    hiddenMap (Some exampleTree) !! path (leafNode "root/Default/A/B" None None)
    = Some v /\
    (v = true <->
     exists a, a ∈ forest (children exampleDefault)
               /\ leafNode "root/Default/A/B" None None ∈ subnodes a
               /\ hidden a = Some true).
Proof.
  apply (hiddenMap_ancestor_declared exampleTree exampleDefault
           (leafNode "root/Default/A/B" None None)).
  - reflexivity.
  - apply (bool_decide_unpack _). vm_compute. exact I.
  - cbn. do 6 apply list_elem_of_further. apply list_elem_of_here.
Defined.

(** ** Keys of the per-path maps *)

Lemma lookupKey_split key kvs v :
  lookupKey key kvs = Some v ->
  exists before k after, kvs = before ++ (k, v) :: after.
Proof.
  induction kvs as [|[k0 v0] kvs IH]; [discriminate|].
  cbn [lookupKey]. destruct (String.eqb k0 key).
  - intros [= ->]. by exists [], k0, kvs.
  - intros Hrest. destruct (IH Hrest) as (before & k & after & ->).
    by exists ((k0, v0) :: before), k, after.
Qed.

Lemma forest_app l1 l2 : forest (l1 ++ l2) = forest l1 ++ forest l2.
Proof. unfold forest. apply flat_map_app. Qed.

(** The nodes of the tree, split around the application node. *)
Lemma subnodes_around_top tree top :
  pseudoRoot (Some tree) = Some top ->
  exists before after,
    subnodes tree = (tree :: before) ++ (top :: forest (children top)) ++ after.
Proof.
  cbn [pseudoRoot]. intros Htop.
  apply lookupKey_split in Htop as (l1 & k & l2 & Hkvs).
  exists (forest l1), (forest l2).
  destruct tree as [p f h cs]. cbn [children] in Hkvs. subst cs.
  destruct top as [p' f' h' cs'].
  cbn [subnodes children]. fold (forest (l1 ++ (k, mkNode p' f' h' cs') :: l2)).
  rewrite forest_app. reflexivity.
Qed.

(** Unique paths in the tree are unique below the application node,
    and the two wrapper nodes have paths of their own. *)
Lemma unique_paths_below tree top :
  pseudoRoot (Some tree) = Some top ->
  NoDup (map path (subnodes tree)) ->
  NoDup (map path (forest (children top))) /\
  (path tree ∉ map path (forest (children top))) /\
  (path top ∉ map path (forest (children top))).
Proof.
  intros Htop Hnd.
  destruct (subnodes_around_top tree top Htop) as (before & after & Hsplit).
  rewrite Hsplit in Hnd. rewrite !map_app in Hnd. cbn [map app] in Hnd.
  apply NoDup_cons in Hnd as [Hroot Hnd].
  apply NoDup_app in Hnd as (_ & _ & Hnd).
  apply NoDup_cons in Hnd as [Htopfresh Hnd].
  apply NoDup_app in Hnd as (Hbelow & _ & _).
  split; [exact Hbelow|]. split.
  - intros Hin. apply Hroot. apply elem_of_app. right.
    apply list_elem_of_further, elem_of_app. by left.
  - intros Hin. apply Htopfresh. apply elem_of_app. by left.
Qed.

Lemma stripOperation_no_hash s : containsHash s = false -> stripOperation s = s.
Proof.
  destruct s as [|c rest]; [reflexivity|].
  cbn [containsHash stripOperation]. intros Hno.
  apply orb_false_iff in Hno as [_ Hrest]. by rewrite Hrest.
Qed.

Lemma hiddenMap_lookup_outside tree top p :
  pseudoRoot (Some tree) = Some top ->
  p ∉ map path (forest (children top)) ->
  hiddenMap (Some tree) !! p = None.
Proof.
  intros Htop Hp. rewrite (hiddenMap_replay tree top Htop).
  rewrite replay_lookup_notin; [apply lookup_empty|].
  by rewrite forestWrites_keys.
Qed.

(** X2.  With unique paths, the tree root and the application node
    are never entered in the visibility map, whatever they declare:
    their own paths are always reported visible. *)
Theorem hiddenMap_wrappers_visible tree top :
  pseudoRoot (Some tree) = Some top ->
  NoDup (map path (subnodes tree)) ->
  hiddenMap (Some tree) !! path tree = None /\
  hiddenMap (Some tree) !! path top = None /\
  (containsHash (path tree) = false ->
   isNodeHidden (hiddenMap (Some tree)) (path tree) = false) /\
  (containsHash (path top) = false ->
   isNodeHidden (hiddenMap (Some tree)) (path top) = false).
Proof.
  intros Htop Hnd.
  destruct (unique_paths_below tree top Htop Hnd) as (_ & Hroot & Htopfresh).
  pose proof (hiddenMap_lookup_outside tree top _ Htop Hroot) as E1.
  pose proof (hiddenMap_lookup_outside tree top _ Htop Htopfresh) as E2.
  split; [exact E1|]. split; [exact E2|]. split.
  - intros Hno. rewrite isNodeHidden_lookup, (stripOperation_no_hash _ Hno), E1.
    apply bool_decide_eq_false. discriminate.
  - intros Hno. rewrite isNodeHidden_lookup, (stripOperation_no_hash _ Hno), E2.
    apply bool_decide_eq_false. discriminate.
Qed.

Lemma hiddenMap_wrappers_visible_witness :
  hiddenMap (Some exampleHiddenWrappers) !! path exampleHiddenWrappers = None /\
  hiddenMap (Some exampleHiddenWrappers) !! "root/Default" = None /\
  (containsHash (path exampleHiddenWrappers) = false ->
   isNodeHidden (hiddenMap (Some exampleHiddenWrappers))
                (path exampleHiddenWrappers) = false) /\
  (containsHash "root/Default" = false ->
   isNodeHidden (hiddenMap (Some exampleHiddenWrappers)) "root/Default" = false).
Proof.
  apply (hiddenMap_wrappers_visible exampleHiddenWrappers
           (mkNode "root/Default" None (Some true)
              [("Y", leafNode "root/Default/Y" None None)])).
  - reflexivity.
  - apply (bool_decide_unpack _). vm_compute. exact I.
Defined.

Example hiddenMap_wrappers_example :
  hiddenMap (Some exampleHiddenWrappers) !! "root/Default/Y" = Some false.
Proof. vm_compute. reflexivity. Qed.

Lemma replay_is_Some {V : Type} (ws : list (string * V)) (m : gmap string V) k :
  is_Some (replay ws m !! k) <-> is_Some (m !! k) \/ k ∈ map fst ws.
Proof.
  revert m. induction ws as [|[k' v'] ws IH]; intros m.
  - cbn. split; [by left|]. intros [H | H]; [exact H|]. by apply elem_of_nil in H.
  - change (replay ((k', v') :: ws) m) with (replay ws (<[k' := v']> m)).
    rewrite IH. cbn [map fst]. rewrite elem_of_cons.
    destruct (decide (k' = k)) as [-> | Hne].
    + rewrite lookup_insert_eq. split; [intros _; right; by left|].
      intros _. left. by eexists.
    + rewrite lookup_insert_ne by exact Hne. split.
      * intros [H | H]; [by left | right; by right].
      * intros [H | [H | H]]; [by left | congruence | by right].
Qed.

Lemma replay_entries_is_Some {V : Type} (value : ConstructTreeNode -> V) ns k :
  is_Some (replay (map (fun n => (path n, value n)) ns) ∅ !! k) <->
  k ∈ map path ns.
Proof.
  rewrite replay_is_Some, map_fst_entries, lookup_empty. split.
  - intros [[v Hv] | H]; [discriminate | exact H].
  - intros H. by right.
Qed.

Lemma hiddenMap_keys_in_tree tree p :
  is_Some (hiddenMap (Some tree) !! p) -> p ∈ map path (subnodes tree).
Proof.
  destruct (pseudoRoot (Some tree)) as [top|] eqn:Htop.
  - rewrite (hiddenMap_replay tree top Htop), replay_is_Some, lookup_empty.
    intros [[v Hv] | Hin]; [discriminate|].
    rewrite forestWrites_keys in Hin.
    destruct (subnodes_around_top tree top Htop) as (before & after & ->).
    rewrite !map_app. cbn [map app]. apply list_elem_of_further, elem_of_app.
    right. apply list_elem_of_further, elem_of_app. by left.
  - unfold hiddenMap. rewrite Htop. cbn. rewrite lookup_empty.
    intros [v Hv]. discriminate.
Qed.

(** X3.  The role map, the descriptor map and the kind map have the
    same keys, the paths of all nodes of the tree, whether or not
    paths repeat; every key of the visibility map is among them. *)
Theorem per_path_maps_keys (bridge : Bridger) tree rcs :
  exists roles info fqns,
    nodeTypes (Some tree) (Some rcs) = Some roles /\
    nodeInfo bridge (Some tree) (Some rcs) = Some info /\
    nodeFqns (Some tree) = Some fqns /\
    forall p,
      (is_Some (roles !! p) <-> p ∈ map path (subnodes tree)) /\
      (is_Some (info !! p) <-> p ∈ map path (subnodes tree)) /\
      (is_Some (fqns !! p) <-> p ∈ map path (subnodes tree)) /\
      (is_Some (hiddenMap (Some tree) !! p) -> is_Some (info !! p)).
Proof.
  eexists _, _, _.
  split; [reflexivity|]. split; [reflexivity|]. split; [reflexivity|].
  intros p.
  rewrite processNodeType_replay, processNodeInfo_replay, processNodeFqn_replay.
  rewrite !replay_entries_is_Some.
  repeat split; try done.
  apply hiddenMap_keys_in_tree.
Qed.

(** X4.  When several nodes carry the same path, each per-path map
    keeps the entry of the last of them in traversal order. *)
Theorem last_node_with_path_wins (bridge : Bridger) tree rcs before node after :
  subnodes tree = before ++ node :: after ->
  path node ∉ map path after ->
  exists roles info fqns,
    nodeTypes (Some tree) (Some rcs) = Some roles /\
    nodeInfo bridge (Some tree) (Some rcs) = Some info /\
    nodeFqns (Some tree) = Some fqns /\
    roles !! path node =
      Some (getNodeType node (hasRawConnection (Some rcs) (path node))) /\
    info !! path node =
      Some (descriptorOf (connections bridge (Some tree) (Some rcs)) node) /\
    fqns !! path node = Some (fqn node).
Proof.
  intros Hsplit Hlast.
  eexists _, _, _.
  split; [reflexivity|]. split; [reflexivity|]. split; [reflexivity|].
  rewrite processNodeType_replay, processNodeInfo_replay, processNodeFqn_replay.
  rewrite Hsplit, !map_app. cbn [map].
  rewrite !replay_app.
  repeat split.
  all: change (replay ((?k, ?v) :: ?ws) ?m) with (replay ws (<[k := v]> m)).
  all: rewrite replay_lookup_notin by (by rewrite map_fst_entries).
  all: apply lookup_insert_eq.
Qed.

Lemma last_node_with_path_wins_witness :
  exists roles info fqns,
    nodeTypes (Some exampleDuplicate) (Some []) = Some roles /\
    nodeInfo (bridgeConnections dropLastSegment)
             (Some exampleDuplicate) (Some []) = Some info /\
    nodeFqns (Some exampleDuplicate) = Some fqns /\
    roles !! path (leafNode "root/dup" (Some fqnFunction) None) =
      Some (getNodeType (leafNode "root/dup" (Some fqnFunction) None)
              (hasRawConnection (Some [])
                 (path (leafNode "root/dup" (Some fqnFunction) None)))) /\
    info !! path (leafNode "root/dup" (Some fqnFunction) None) =
      Some (descriptorOf
              (connections (bridgeConnections dropLastSegment)
                 (Some exampleDuplicate) (Some []))
              (leafNode "root/dup" (Some fqnFunction) None)) /\
    fqns !! path (leafNode "root/dup" (Some fqnFunction) None) =
      Some (fqn (leafNode "root/dup" (Some fqnFunction) None)).
Proof.
  apply (last_node_with_path_wins (bridgeConnections dropLastSegment)
           exampleDuplicate []
           [exampleDuplicate; leafNode "root/dup" (Some fqnSchedule) None]
           (leafNode "root/dup" (Some fqnFunction) None) []).
  - reflexivity.
  - cbn. apply not_elem_of_nil.
Defined.

Example last_node_with_path_wins_example :
  (nodeTypes (Some exampleDuplicate) (Some []) ≫= fun roles => roles !! "root/dup")
  = Some function.
Proof. vm_compute. reflexivity. Qed.

(** ** More on descriptors and inflight records *)

Lemma append_inj_r (p a b : string) : p +:+ a = p +:+ b -> a = b.
Proof.
  induction p as [|c p IH]; [done|]. intros [= H]. by apply IH.
Qed.

Lemma existsb_filter_implied {A : Type} (f g : A -> bool) (l : list A) :
  (forall x, f x = true -> g x = true) ->
  existsb f (List.filter g l) = existsb f l.
Proof.
  intros Himp. induction l as [|x l IH]; [reflexivity|].
  cbn. destruct (g x) eqn:Eg; cbn; rewrite IH; [reflexivity|].
  destruct (f x) eqn:Ef; [|reflexivity].
  apply Himp in Ef. congruence.
Qed.

Lemma filter_filter_implied {A : Type} (f g : A -> bool) (l : list A) :
  (forall x, f x = true -> g x = true) ->
  List.filter f (List.filter g l) = List.filter f l.
Proof.
  intros Himp. rewrite filter_filter_both. apply List.filter_ext. intros x.
  destruct (f x) eqn:Ef, (g x) eqn:Eg; try reflexivity.
  apply Himp in Ef. congruence.
Qed.

(** X5.  The inflight records of a node only depend on the connections
    that have the node at one end: the other connections can be removed
    without changing any record. *)
Theorem getNodeInflights_local (node : ConstructTreeNode)
    (cs : list Conn.Connection) :
  getNodeInflights node (List.filter (touches (path node)) cs)
  = getNodeInflights node cs.
Proof.
  unfold getNodeInflights.
  rewrite !filter_filter_implied
    by (intros c Hc; unfold touches; rewrite Hc; by rewrite ?orb_true_r).
  apply map_ext. intros name. f_equal.
  - unfold occupied. apply existsb_filter_implied. intros c Hc.
    apply andb_true_iff in Hc as [Hid _]. unfold touches, atNode.
    by rewrite Hid.
  - unfold occupied. apply existsb_filter_implied. intros c Hc.
    apply andb_true_iff in Hc as [Hid _]. unfold touches, atNode.
    rewrite Hid. by rewrite orb_true_r.
Qed.

Lemma inflight_ids node cs :
  map Inflight.id (getNodeInflights node cs) =
  map (fun name => path node +:+ "#" +:+ name)
      (map Inflight.name (getNodeInflights node cs)).
Proof.
  unfold getNodeInflights. rewrite !map_map. reflexivity.
Qed.

(** X6.  The ids of the inflight records of a node are pairwise
    distinct, and every record is occupied at the source end or at the
    target end. *)
Theorem getNodeInflights_ids_unique (node : ConstructTreeNode)
    (cs : list Conn.Connection) :
  NoDup (map Inflight.id (getNodeInflights node cs)) /\
  (forall r, r ∈ getNodeInflights node cs ->
     Inflight.sourceOccupied r = true \/ Inflight.targetOccupied r = true).
Proof.
  split.
  - rewrite inflight_ids.
    apply (NoDup_fmap_2_strong (fun name => path node +:+ "#" +:+ name)).
    + intros a b _ _ Heq. apply append_inj_r in Heq.
      by apply (append_inj_r "#") in Heq.
    + rewrite getNodeInflights_names. apply firstSeen_NoDup.
  - intros r Hr.
    destruct (getNodeInflights_elem node cs r Hr) as (_ & Hsrc & Htgt).
    rewrite Hsrc, Htgt, !occupied_true.
    assert (Inflight.name r ∈ map Inflight.name (getNodeInflights node cs)) as Hin
      by (by apply (list_elem_of_fmap_2 Inflight.name)).
    apply inflight_names_elem in Hin as [_ [Ht | Hs]]; [by right | by left].
Qed.

(** An entry read from a replayed traversal belongs to a node. *)
Lemma replay_entries_lookup {V : Type} (value : ConstructTreeNode -> V) ns k v :
  replay (map (fun n => (path n, value n)) ns) ∅ !! k = Some v ->
  exists n, n ∈ ns /\ path n = k /\ value n = v.
Proof.
  intros Hk. apply replay_lookup_written in Hk as [Hin | Hm].
  - apply list_elem_of_fmap in Hin as (n & [= -> ->] & Hn). by exists n.
  - by rewrite lookup_empty in Hm.
Qed.

Lemma getNodeType_container node flag :
  getNodeType node flag = container ->
  flag = false /\ hasVisibleChildren node = true.
Proof.
  unfold getNodeType.
  destruct (optionIs (fqn node) fqnFunction); [discriminate|].
  destruct (optionIs (fqn node) fqnAutoId); [discriminate|].
  destruct (optionIs (fqn node) fqnSchedule); [discriminate|].
  destruct (optionIs (fqn node) fqnEndpoint); [discriminate|].
  destruct (optionIs (fqn node) fqnApi); [discriminate|].
  destruct flag; [discriminate|].
  destruct (hasVisibleChildren node); [done | discriminate].
Qed.

(** X7.  Whatever the bridger returns and whether or not paths repeat,
    every descriptor of the descriptor map has the type [container],
    [autoId], [function] or [construct]; a [container] descriptor
    lists at least one child and its path is at no end of a bridged
    connection; the records of a [construct] descriptor have ids that
    start with the path of the entry and a ["#"]. *)
Theorem nodeInfo_entries (bridge : Bridger) tree rcs :
  exists info bridged,
    nodeInfo bridge (Some tree) (Some rcs) = Some info /\
    connections bridge (Some tree) (Some rcs) = Some bridged /\
    forall p d, info !! p = Some d ->
      typeOf d <> scheduler /\ typeOf d <> endpoint /\
      (forall kids, d = V2container kids ->
         kids <> [] /\ hasConnection (Some bridged) p = false) /\
      (forall inflights r, d = V2construct inflights -> r ∈ inflights ->
         Inflight.id r = p +:+ "#" +:+ Inflight.name r).
Proof.
  eexists _, _. split; [reflexivity|]. split; [apply connections_Some|].
  intros p d Hd. rewrite processNodeInfo_replay in Hd.
  apply replay_entries_lookup in Hd as (n & _ & <- & <-).
  rewrite connections_Some. unfold descriptorOf.
  destruct (getNodeType n _) eqn:Erole; cbn [typeOf];
    repeat split; try discriminate.
  all: try (intros kids [= <-]).
  all: try (intros inflights r [= <-] Hr;
            by destruct (getNodeInflights_elem _ _ _ Hr) as (Hid & _)).
  - apply getNodeType_container in Erole as [_ Hvis].
    unfold hasVisibleChildren in Hvis.
    match goal with H : V2container _ = V2container _ |- _ =>
      inversion H; subst kids end.
    destruct (childNodes n); [discriminate Hvis | discriminate].
  - by apply getNodeType_container in Erole as [Hflag _].
Qed.

(** ** More on ports *)

Lemma append_cons x (a b : string) : String x a +:+ b = String x (a +:+ b).
Proof. reflexivity. Qed.

Lemma append_assoc (a b c : string) : (a +:+ b) +:+ c = a +:+ (b +:+ c).
Proof.
  induction a as [|x a IH]; [reflexivity|]. by rewrite !append_cons, IH.
Qed.

Lemma length_append (a b : string) :
  String.length (a +:+ b) = String.length a + String.length b.
Proof.
  induction a as [|x a IH]; [reflexivity|]. rewrite append_cons. cbn.
  by rewrite IH.
Qed.

(** No string ends both in ["source"] and in ["target"]. *)
Lemma source_target_suffix (a b : string) : a +:+ "source" <> b +:+ "target".
Proof.
  intros Heq.
  assert (String.length a = String.length b) as Hlen.
  { apply (f_equal String.length) in Heq. rewrite !length_append in Heq.
    cbn in Heq. lia. }
  revert b Heq Hlen. induction a as [|x a IH]; intros [|y b] Heq Hlen;
    try discriminate.
  rewrite !append_cons in Heq. cbn in Hlen.
  inversion Heq. apply (IH b); [done | lia].
Qed.

(** The port of a visible endpoint: the path, a ["#"], and a rest that
    ends in the direction. *)
Lemma visible_port_shape hm nodePath nodeFqn operation type :
  isNodeHidden hm nodePath = false ->
  exists middle,
    getConnectionId hm nodePath nodeFqn operation type
    = nodePath +:+ "#" +:+ middle +:+ directionString type.
Proof.
  intros Hvis. unfold getConnectionId. rewrite Hvis.
  destruct (optionIs nodeFqn fqnFunction).
  - by exists "invoke#".
  - destruct (truthyString operation).
    + exists (showOptional operation +:+ "#"). by rewrite append_assoc.
    + by exists EmptyString.
Qed.



(** X9.  The edge of a connection whose two endpoints are visible never
    has the same port at both ends, even when the connection goes from
    a node to itself; when both endpoints are the same hidden path the
    two ports are that path. *)
Theorem toEdge_ports_differ (hm : gmap string bool) (connection : Conn.Connection) :
  (isNodeHidden hm (Conn.id (Conn.source connection)) = false ->
   isNodeHidden hm (Conn.id (Conn.target connection)) = false ->
   Edge.sources (toEdge hm connection) <> Edge.targets (toEdge hm connection)) /\
  (isNodeHidden hm (Conn.id (Conn.source connection)) = true ->
   Conn.id (Conn.target connection) = Conn.id (Conn.source connection) ->
   Edge.sources (toEdge hm connection) = [Conn.id (Conn.source connection)] /\
   Edge.targets (toEdge hm connection) = [Conn.id (Conn.source connection)]).
Proof.
  split.
  - intros Hs Ht. unfold toEdge. cbn [Edge.sources Edge.targets].
    destruct (visible_port_shape hm _ (Conn.nodeFqn (Conn.source connection))
                (Conn.operation (Conn.source connection)) dirSource Hs)
      as (ms & ->).
    destruct (visible_port_shape hm _ (Conn.nodeFqn (Conn.target connection))
                (Conn.operation (Conn.target connection)) dirTarget Ht)
      as (mt & ->).
    intros [= Heq]. cbn [directionString] in Heq.
    rewrite <- !append_assoc in Heq.
    by apply source_target_suffix in Heq.
  - intros Hs Heq. unfold toEdge, getConnectionId.
    cbn [Edge.sources Edge.targets]. rewrite Heq, Hs. done.
Qed.

(** ** Endpoints of the bridger's input *)

Lemma getFqn_absent tree p :
  p ∉ map path (subnodes tree) -> getFqn (processNodeFqn tree ∅) p = None.
Proof.
  intros Hp. unfold getFqn. rewrite processNodeFqn_replay.
  rewrite replay_lookup_notin by (by rewrite map_fst_entries).
  by rewrite lookup_empty.
Qed.


(** X11.  An endpoint whose path belongs to no node of the tree and
    holds no ["#"] is treated as a visible node of unknown kind: its
    port is [path#operation#direction] when it has an operation and
    [path#direction] otherwise. *)
Theorem unresolved_path_port tree p operation type :
  p ∉ map path (subnodes tree) ->
  containsHash p = false ->
  isNodeHidden (hiddenMap (Some tree)) p = false /\
  getFqn (processNodeFqn tree ∅) p = None /\
  getConnectionId (hiddenMap (Some tree)) p
    (getFqn (processNodeFqn tree ∅) p) operation type
  = match operation with
    | Some (String c rest) =>
        p +:+ "#" +:+ String c rest +:+ "#" +:+ directionString type
    | _ => p +:+ "#" +:+ directionString type
    end.
Proof.
  intros Hp Hhash.
  assert (isNodeHidden (hiddenMap (Some tree)) p = false) as Hvis.
  { rewrite isNodeHidden_lookup, (stripOperation_no_hash p Hhash).
    apply bool_decide_eq_false. intros Hk.
    apply Hp, hiddenMap_keys_in_tree. by eexists. }
  split; [exact Hvis|]. split; [by apply getFqn_absent|].
  unfold getConnectionId. rewrite Hvis, (getFqn_absent tree p Hp).
  destruct operation as [[|c rest]|]; reflexivity.
Qed.

Lemma unresolved_path_port_witness :
  isNodeHidden (hiddenMap (Some exampleTree)) "Other" = false /\
  getFqn (processNodeFqn exampleTree ∅) "Other" = None /\
  getConnectionId (hiddenMap (Some exampleTree)) "Other"
    (getFqn (processNodeFqn exampleTree ∅) "Other") (Some "invoke") dirTarget
  = "Other" +:+ "#" +:+ "invoke" +:+ "#" +:+ directionString dirTarget.
Proof.
  apply (unresolved_path_port exampleTree "Other" (Some "invoke") dirTarget).
  - apply (bool_decide_unpack _). vm_compute. exact I.
  - reflexivity.
Defined.

(** ** The AWS bucket *)

Lemma prefix_append (a s : string) :
  String.prefix a s = true <-> exists rest, s = a +:+ rest.
Proof.
  revert s. induction a as [|x a IH]; intros s.
  - split; [intros _; exists s; reflexivity | intros _; by destruct s].
  - destruct s as [|y s]; cbn [String.prefix].
    + split; [discriminate | intros (rest & Heq); discriminate].
    + destruct (ascii_dec x y) as [<- | Hne].
      * rewrite IH. split; intros (rest & Heq); exists rest.
        -- by rewrite append_cons, Heq.
        -- rewrite append_cons in Heq. by inversion Heq.
      * split; [discriminate|]. intros (rest & Heq).
        rewrite append_cons in Heq. inversion Heq. done.
Qed.


Lemma createEncryptedBucket_throws (bucketPrefix : string)
    (isTestEnvironment isPublic : bool) (name : string) :
  (exists message,
     Bucket.createEncryptedBucket bucketPrefix isTestEnvironment isPublic name
     = inl message)
  <-> Bucket.startsWithXn bucketPrefix = true
      \/ Bucket.beginsWithLowerAlnum bucketPrefix = false.
Proof.
  unfold Bucket.createEncryptedBucket.
  destruct (Bucket.startsWithXn bucketPrefix).
  - split; [by left | intros _; by eexists].
  - destruct (Bucket.beginsWithLowerAlnum bucketPrefix); cbn [negb].
    + split; [|intros [H | H]; discriminate].
      intros (message & H). destruct isPublic; discriminate.
    + split; [by right | intros _; by eexists].
Qed.

(** X13.  For a prefix made of the characters the prefix options let
    through (lowercase letters, digits and ["-"]), the only prefixes
    [createEncryptedBucket] rejects are the empty one, those that start
    with ["-"] and those that start with ["xn--"]. *)
Theorem createEncryptedBucket_allowed_prefix (bucketPrefix : string)
    (isTestEnvironment isPublic : bool) (name : string) :
  Bucket.allChars
    (fun c => negb (Bucket.disallowedRegex Bucket.BUCKET_PREFIX_OPTS c))
    bucketPrefix = true ->
  ((exists message,
      Bucket.createEncryptedBucket bucketPrefix isTestEnvironment isPublic name
      = inl message)
   <-> bucketPrefix = EmptyString
       \/ (exists rest, bucketPrefix = "-" +:+ rest)
       \/ (exists rest, bucketPrefix = "xn--" +:+ rest)).
Proof.
  intros Hallowed. rewrite createEncryptedBucket_throws.
  unfold Bucket.startsWithXn. rewrite prefix_append.
  destruct bucketPrefix as [|c rest].
  - split; [intros _; by left | intros _; by right].
  - cbn [Bucket.allChars Bucket.disallowedRegex Bucket.BUCKET_PREFIX_OPTS]
      in Hallowed.
    apply andb_true_iff in Hallowed as [Hc _].
    rewrite negb_involutive in Hc.
    cbn [Bucket.beginsWithLowerAlnum]. split.
    + intros [Hxn | Hnot]; [by right; right|].
      right. left. rewrite Hnot in Hc. cbn [orb] in Hc.
      apply Ascii.eqb_eq in Hc. subst c. by exists rest.
    + intros [Hempty | [(r & Heq) | Hxn]]; [discriminate | | by left].
      right. rewrite append_cons in Heq. inversion Heq. reflexivity.
Qed.

Lemma createEncryptedBucket_allowed_prefix_witness :
  (exists message,
     Bucket.createEncryptedBucket "-my-bucket-" true false "Default"
     = inl message)
  <-> "-my-bucket-" = EmptyString
      \/ (exists rest, "-my-bucket-" = "-" +:+ rest)
      \/ (exists rest, "-my-bucket-" = "xn--" +:+ rest).
Proof.
  apply (createEncryptedBucket_allowed_prefix "-my-bucket-" true false "Default").
  reflexivity.
Defined.

(** A generated prefix that is accepted, for a public bucket. *)
Example createEncryptedBucket_example :
  Bucket.createEncryptedBucket "my-bucket-c8a1-" false true "Default"
  = inr [Bucket.S3Bucket "Default" "my-bucket-c8a1-" false;
         Bucket.S3BucketPublicAccessBlock "PublicAccessBlock"
           (Bucket.bucketOf "Default") false false false false;
         Bucket.S3BucketPolicy "PublicPolicy" (Bucket.bucketOf "Default")
           (Bucket.mkPolicy "2012-10-17"
              [Bucket.mkStatement "Allow" "*" ["s3:GetObject"]
                 [(Bucket.arnOf "Default", "/*")]])
           ["PublicAccessBlock"]] /\
  Bucket.createEncryptedBucket "xn--bucket-" false true "Default"
  = inl "AWS S3 bucket names cannot begin with 'xn--'." /\
  Bucket.createEncryptedBucket "-" false false "Default"
  = inl "AWS S3 bucket names must begin with a letter or number.".
Proof. vm_compute. repeat split. Qed.

Lemma substring_all (m : nat) (s : string) :
  String.length s <= m -> String.substring 0 m s = s.
Proof.
  revert m. induction s as [|c s IH]; intros m Hlen.
  - by destruct m.
  - destruct m as [|m]; cbn in Hlen; [lia|].
    cbn [String.substring]. rewrite IH by lia. reflexivity.
Qed.

(** A substring that reaches the end of the string is a suffix. *)
Lemma substring_suffix (s : string) (k m : nat) :
  k <= String.length s -> String.length s <= k + m ->
  exists before,
    s = before +:+ String.substring k m s /\ String.length before = k.
Proof.
  revert k. induction s as [|c s IH]; intros k Hk Hm.
  - cbn in Hk. assert (k = 0) as -> by lia. exists EmptyString.
    split; [by destruct m | reflexivity].
  - destruct k as [|k].
    + exists EmptyString. rewrite substring_all by (cbn in *; lia). done.
    + cbn in Hk, Hm. destruct (IH k) as (before & Heq & Hlen); [lia | lia |].
      exists (String c before). cbn [String.substring].
      rewrite append_cons, <- Heq. split; [reflexivity | cbn; lia].
Qed.

(** X14.  The environment variable of a bucket is ["BUCKET_NAME_"]
    followed by the last eight characters of the node address, or by
    the whole address when it is shorter; it has at most twenty
    characters. *)
Theorem envName_suffix (addr : string) :
  exists before last,
    addr = before +:+ last /\
    Bucket.envName addr = "BUCKET_NAME_" +:+ last /\
    String.length last = Nat.min 8 (String.length addr) /\
    String.length (Bucket.envName addr) = 12 + Nat.min 8 (String.length addr) /\
    String.length (Bucket.envName addr) <= 20.
Proof.
  destruct (substring_suffix addr (String.length addr - 8) 8)
    as (before & Heq & Hlen); [lia | lia |].
  exists before, (Bucket.sliceLast 8 addr).
  assert (String.length (Bucket.sliceLast 8 addr)
          = Nat.min 8 (String.length addr)) as Hlast.
  { apply (f_equal String.length) in Heq. rewrite length_append in Heq.
    unfold Bucket.sliceLast. lia. }
  split; [exact Heq|]. split; [reflexivity|]. split; [exact Hlast|].
  unfold Bucket.envName. rewrite length_append, Hlast.
  change (String.length "BUCKET_NAME_") with 12. lia.
Qed.

Example envName_example :
  Bucket.envName "c8a1b2c3d4e5f60718293a4b5c6d7e8f9012345678"
  = "BUCKET_NAME_12345678" /\
  Bucket.envName "abc" = "BUCKET_NAME_abc".
Proof. vm_compute. split; reflexivity. Qed.

Lemma createTopics_from lowerName calls this :
  (forall fields,
     Bucket.createTopics lowerName calls this = inr fields ->
     exists records,
       map (Bucket.recorded lowerName) calls = map Some records /\
       Bucket.notificationTopics fields
       = Bucket.notificationTopics this ++ map fst records /\
       Bucket.notificationDependencies fields
       = Bucket.notificationDependencies this ++ map snd records) /\
  (forall message,
     Bucket.createTopics lowerName calls this = inl message ->
     message = "Topic only supports creating tfaws.Function right now" /\
     exists call, call ∈ calls /\ fst call = Bucket.otherTopic).
Proof.
  revert this. induction calls as [|[handler actionType] calls IH]; intros this.
  - split.
    + intros fields [= <-]. exists []. cbn. by rewrite !app_nil_r.
    + intros message. discriminate.
  - cbn [Bucket.createTopics]. destruct handler as [arn permissions|];
      cbn [Bucket.createTopic].
    + destruct (IH (Bucket.mkFields
          (Bucket.notificationTopics this
           ++ [Bucket.mkNotificationTopic
                 ("on-" +:+ lowerName actionType +:+ "-notification")
                 (Bucket.EVENTS actionType) arn])
          (Bucket.notificationDependencies this ++ [permissions])))
        as (Hok & Hthrow).
      cbn [Bucket.notificationTopics Bucket.notificationDependencies] in *.
      split.
      * intros fields Hrun. destruct (Hok fields Hrun) as (records & Hrec & Ht & Hd).
        exists ((Bucket.mkNotificationTopic
                   ("on-" +:+ lowerName actionType +:+ "-notification")
                   (Bucket.EVENTS actionType) arn, permissions) :: records).
        cbn [map fst snd]. rewrite <- Hrec, Ht, Hd, <- !app_assoc. done.
      * intros message Hrun. destruct (Hthrow message Hrun) as (-> & call & Hin & Hc).
        split; [reflexivity|]. exists call. split; [|exact Hc].
        by apply list_elem_of_further.
    + split; [intros fields; discriminate|].
      intros message [= <-]. split; [reflexivity|].
      exists (Bucket.otherTopic, actionType). split; [apply list_elem_of_here | done].
Qed.

(** X15.  A run of [createTopic] calls on a new bucket throws as soon
    as a handler is not a topic of this target.  When the run
    completes, the bucket holds one notification topic and one
    dependency per call, in call order, each topic with the events of
    the table for its event type and the arn of its handler; and
    [_preSynthesize] declares the notification construct, with all
    these topics and dependencies, exactly when there was a call. *)
Theorem createTopics_notifications (lowerName : Bucket.BucketEventType -> string)
    (calls : list (Bucket.TopicHandler * Bucket.BucketEventType)) (name : string) :
  (forall fields,
     Bucket.createTopics lowerName calls Bucket.initial = inr fields ->
     map Some (zip (Bucket.notificationTopics fields)
                   (Bucket.notificationDependencies fields))
     = map (Bucket.recorded lowerName) calls /\
     length (Bucket.notificationTopics fields) = length calls /\
     length (Bucket.notificationDependencies fields) = length calls /\
     (Bucket._preSynthesize name fields = None <-> calls = []) /\
     (forall notification,
        Bucket._preSynthesize name fields = Some notification ->
        Bucket.bucket notification = Bucket.idOf name /\
        Bucket.topic notification = Bucket.notificationTopics fields /\
        Bucket.dependsOn notification = Bucket.notificationDependencies fields)) /\
  ((exists message,
      Bucket.createTopics lowerName calls Bucket.initial = inl message)
   <-> exists call, call ∈ calls /\ fst call = Bucket.otherTopic).
Proof.
  destruct (createTopics_from lowerName calls Bucket.initial) as (Hok & Hthrow).
  split.
  - intros fields Hrun. destruct (Hok fields Hrun) as (records & Hrec & Ht & Hd).
    cbn [Bucket.initial Bucket.notificationTopics
         Bucket.notificationDependencies app] in Ht, Hd.
    assert (length records = length calls) as Hlen.
    { apply (f_equal length) in Hrec. by rewrite !length_map in Hrec. }
    assert (zip (map fst records) (map snd records) = records) as Hzip.
    { clear. induction records as [|[t d] records IH]; cbn; [done|].
      by rewrite IH. }
    split; [by rewrite Ht, Hd, Hzip, Hrec|].
    split; [by rewrite Ht, length_map|].
    split; [by rewrite Hd, length_map|].
    assert (length (Bucket.notificationTopics fields) = length calls) as Hlt
      by (by rewrite Ht, length_map).
    unfold Bucket._preSynthesize. rewrite Hlt.
    destruct calls as [|call calls]; cbn [length Nat.eqb].
    + split; [done|]. intros notification. discriminate.
    + split; [split; discriminate|].
      intros notification [= <-]. cbn. done.
  - split.
    + intros (message & Hrun). by destruct (Hthrow message Hrun) as (_ & Hcall).
    + intros (call & Hin & Hother).
      destruct (Bucket.createTopics lowerName calls Bucket.initial)
        as [message | fields] eqn:Hrun; [by exists message|].
      exfalso. destruct (Hok fields eq_refl) as (records & Hrec & _).
      apply list_elem_of_lookup in Hin as (i & Hi).
      apply (f_equal (fun l => l !! i)) in Hrec.
      change (map ?f ?l) with (f <$> l) in Hrec.
      rewrite !list_lookup_fmap, Hi in Hrec. cbn in Hrec.
      unfold Bucket.recorded in Hrec. rewrite Hother in Hrec.
      destruct (records !! i); discriminate.
Qed.

(** Two handlers of this target, then [_preSynthesize]. *)
Example createTopics_example :
  (match Bucket.createTopics (fun _ => "oncreate")
           [(Bucket.AWSTopic "arn:a" "perm:a", Bucket.CREATE);
            (Bucket.AWSTopic "arn:b" "perm:b", Bucket.DELETE)]
           Bucket.initial with
   | inr fields => Bucket._preSynthesize "Default" fields
   | inl _ => None
   end)
  = Some (Bucket.mkNotification (Bucket.idOf "Default")
            [Bucket.mkNotificationTopic "on-oncreate-notification"
               ["s3:ObjectCreated:Put"] "arn:a";
             Bucket.mkNotificationTopic "on-oncreate-notification"
               ["s3:ObjectRemoved:*"] "arn:b"]
            ["perm:a"; "perm:b"]) /\
  Bucket.createTopics (fun _ => "oncreate")
    [(Bucket.AWSTopic "arn:a" "perm:a", Bucket.CREATE);
     (Bucket.otherTopic, Bucket.DELETE)]
    Bucket.initial
  = inl "Topic only supports creating tfaws.Function right now" /\
  Bucket._preSynthesize "Default" Bucket.initial = None.
Proof. vm_compute. repeat split. Qed.

(** ** The connection id handed to the bridger *)

Lemma containsHash_cons c s :
  containsHash (String c s) = Ascii.eqb c "#" || containsHash s.
Proof. reflexivity. Qed.

(** Two strings cut at their first ["#"] agree on both sides. *)
Lemma split_at_first_hash (a b r s : string) :
  containsHash a = false -> containsHash b = false ->
  a +:+ String "#" r = b +:+ String "#" s -> a = b /\ r = s.
Proof.
  revert b. induction a as [|x a IH]; intros [|y b] Ha Hb Heq.
  - by inversion Heq.
  - rewrite append_cons in Heq. inversion Heq; subst y.
    rewrite containsHash_cons in Hb. discriminate.
  - rewrite append_cons in Heq. inversion Heq; subst x.
    rewrite containsHash_cons in Ha. discriminate.
  - rewrite !append_cons in Heq. inversion Heq; subst y.
    rewrite containsHash_cons in Ha, Hb.
    apply orb_false_iff in Ha as [_ Ha]. apply orb_false_iff in Hb as [_ Hb].
    destruct (IH b Ha Hb) as [-> ->]; done.
Qed.

Lemma showOptional_inj o1 o2 :
  o1 <> Some "undefined" -> o2 <> Some "undefined" ->
  showOptional o1 = showOptional o2 -> o1 = o2.
Proof.
  destruct o1 as [a|], o2 as [b|]; cbn; intros H1 H2 Heq; congruence.
Qed.

(** X16.  For connections whose endpoint paths hold no ["#"] and whose
    operations hold no ["#"] and are not the text ["undefined"], the id
    handed to the bridger is the same exactly when the two connections
    have the same source path, source operation, target path and target
    operation; the kinds of the endpoints play no part. *)
Theorem bridgeConnectionId_identity (c1 c2 : Conn.Connection) :
  containsHash (Conn.id (Conn.source c1)) = false ->
  containsHash (Conn.id (Conn.target c1)) = false ->
  containsHash (Conn.id (Conn.source c2)) = false ->
  containsHash (Conn.id (Conn.target c2)) = false ->
  printable (Conn.operation (Conn.source c1)) ->
  printable (Conn.operation (Conn.target c1)) ->
  printable (Conn.operation (Conn.source c2)) ->
  printable (Conn.operation (Conn.target c2)) ->
  (bridgeConnectionId c1 = bridgeConnectionId c2 <->
   Conn.id (Conn.source c1) = Conn.id (Conn.source c2) /\
   Conn.operation (Conn.source c1) = Conn.operation (Conn.source c2) /\
   Conn.id (Conn.target c1) = Conn.id (Conn.target c2) /\
   Conn.operation (Conn.target c1) = Conn.operation (Conn.target c2)).
Proof.
  intros Hs1 Ht1 Hs2 Ht2 [Hos1 Hus1] [Hot1 Hut1] [Hos2 Hus2] [Hot2 Hut2].
  unfold bridgeConnectionId. split.
  - intros Heq.
    change (?a +:+ "#" +:+ ?r) with (a +:+ String "#" r) in Heq.
    apply split_at_first_hash in Heq as [Hsid Heq]; [|done|done].
    change (?a +:+ "##" +:+ ?r) with (a +:+ String "#" (String "#" r)) in Heq.
    apply split_at_first_hash in Heq as [Hsop Heq]; [|done|done].
    inversion Heq as [Heq'].
    change (?a +:+ "#" +:+ ?r) with (a +:+ String "#" r) in Heq'.
    apply split_at_first_hash in Heq' as [Htid Htop]; [|done|done].
    repeat split; try done; by apply showOptional_inj.
  - intros (-> & -> & -> & ->). reflexivity.
Qed.

Lemma bridgeConnectionId_identity_witness :
  bridgeConnectionId
    (Conn.mk (Conn.mkEndpoint "root/Default/Y" None (Some "call"))
             (Conn.mkEndpoint "root/Default/F" (Some fqnFunction) (Some "invoke")))
  = bridgeConnectionId
      (Conn.mk (Conn.mkEndpoint "root/Default/Y" None (Some "call"))
               (Conn.mkEndpoint "root/Default/F" None (Some "invoke")))
  <->
  "root/Default/Y" = "root/Default/Y" /\ Some "call" = Some "call" /\
  "root/Default/F" = "root/Default/F" /\ Some "invoke" = Some "invoke".
Proof.
  apply (bridgeConnectionId_identity
           (Conn.mk (Conn.mkEndpoint "root/Default/Y" None (Some "call"))
                    (Conn.mkEndpoint "root/Default/F" (Some fqnFunction)
                       (Some "invoke")))
           (Conn.mk (Conn.mkEndpoint "root/Default/Y" None (Some "call"))
                    (Conn.mkEndpoint "root/Default/F" None (Some "invoke"))));
    try reflexivity; split; (reflexivity || discriminate).
Defined.

(** An absent operation and the operation ["undefined"] print the same
    id. *)
Example bridgeConnectionId_undefined_example :
  bridgeConnectionId
    (Conn.mk (Conn.mkEndpoint "a" None None) (Conn.mkEndpoint "b" None None))
  = bridgeConnectionId
      (Conn.mk (Conn.mkEndpoint "a" None (Some "undefined"))
               (Conn.mkEndpoint "b" None None)).
Proof. reflexivity. Qed.

(** ** Role map and descriptor map *)

(** X17.  With unique paths, the role map and the descriptor map agree
    on a node as follows: a node with role [scheduler] or [endpoint]
    has a [construct] descriptor, and any other node has a descriptor
    of its role whenever its kind is one of the well-known kinds or the
    API kind, or all its children declare themselves hidden, or it is
    an endpoint of a raw connection exactly when it is an endpoint of a
    bridged one. *)
Theorem roles_and_descriptors (bridge : Bridger) tree rcs node :
  NoDup (map path (subnodes tree)) ->
  node ∈ subnodes tree ->
  exists roles info bridged role descriptor,
    nodeTypes (Some tree) (Some rcs) = Some roles /\
    nodeInfo bridge (Some tree) (Some rcs) = Some info /\
    connections bridge (Some tree) (Some rcs) = Some bridged /\
    roles !! path node = Some role /\
    info !! path node = Some descriptor /\
    (role = scheduler \/ role = endpoint -> typeOf descriptor = construct) /\
    (role <> scheduler -> role <> endpoint ->
     wellKnownKind node \/ fqn node = Some fqnApi
     \/ allChildrenDeclaredHidden node
     \/ hasRawConnection (Some rcs) (path node)
        = hasConnection (Some bridged) (path node) ->
     typeOf descriptor = role).
Proof.
  intros Hnd Hin.
  eexists _, _, _,
    (getNodeType node (hasRawConnection (Some rcs) (path node))),
    (descriptorOf (connections bridge (Some tree) (Some rcs)) node).
  split; [reflexivity|]. split; [reflexivity|].
  split; [apply connections_Some|].
  split.
  { rewrite processNodeType_replay.
    exact (replay_subnodes_lookup
             (fun n => getNodeType n (hasRawConnection (Some rcs) (path n)))
             _ _ Hnd Hin). }
  split.
  { rewrite processNodeInfo_replay.
    exact (replay_subnodes_lookup
             (descriptorOf (connections bridge (Some tree) (Some rcs)))
             _ _ Hnd Hin). }
  rewrite connections_Some. unfold descriptorOf.
  set (raw := hasRawConnection (Some rcs) (path node)).
  set (br := hasConnection _ (path node)).
  assert (forall flag,
            wellKnownKind node \/ fqn node = Some fqnApi
            \/ allChildrenDeclaredHidden node ->
            getNodeType node flag = getNodeType node false) as Hflag.
  { intros flag Hfix. unfold getNodeType, wellKnownKind in *.
    destruct (optionIs (fqn node) fqnFunction) eqn:E1; [reflexivity|].
    destruct (optionIs (fqn node) fqnAutoId) eqn:E2; [reflexivity|].
    destruct (optionIs (fqn node) fqnSchedule) eqn:E3; [reflexivity|].
    destruct (optionIs (fqn node) fqnEndpoint) eqn:E4; [reflexivity|].
    apply optionIs_false in E1, E2, E3, E4.
    destruct Hfix as [Hwk | [Hapi | Hkids]]; [tauto| |].
    - apply optionIs_true in Hapi. by rewrite Hapi.
    - apply hasVisibleChildren_false in Hkids. rewrite Hkids.
      by rewrite !orb_true_r. }
  split.
  - intros [Hrole | Hrole].
    + assert (getNodeType node br = scheduler) as ->; [|reflexivity].
      revert Hrole. unfold getNodeType.
      repeat (destruct (optionIs _ _); try discriminate; try reflexivity).
      destruct (_ || _ || _); discriminate.
    + assert (getNodeType node br = endpoint) as ->; [|reflexivity].
      revert Hrole. unfold getNodeType.
      repeat (destruct (optionIs _ _); try discriminate; try reflexivity).
      destruct (_ || _ || _); discriminate.
  - intros Hns Hne Hcases.
    assert (getNodeType node br = getNodeType node raw) as Hsame.
    { destruct Hcases as [H | [H | [H | H]]].
      - rewrite (Hflag br), (Hflag raw); tauto.
      - rewrite (Hflag br), (Hflag raw); tauto.
      - rewrite (Hflag br), (Hflag raw); tauto.
      - by rewrite H. }
    rewrite Hsame. destruct (getNodeType node raw); done.
Qed.

Lemma roles_and_descriptors_witness :
  exists roles info bridged role descriptor,
    nodeTypes (Some exampleTree) (Some exampleCalls) = Some roles /\
    nodeInfo (bridgeConnections dropLastSegment)
             (Some exampleTree) (Some exampleCalls) = Some info /\
    connections (bridgeConnections dropLastSegment)
                (Some exampleTree) (Some exampleCalls) = Some bridged /\
    roles !! path exampleX = Some role /\
    info !! path exampleX = Some descriptor /\
    (role = scheduler \/ role = endpoint -> typeOf descriptor = construct) /\
    (role <> scheduler -> role <> endpoint ->
     wellKnownKind exampleX \/ fqn exampleX = Some fqnApi
     \/ allChildrenDeclaredHidden exampleX
     \/ hasRawConnection (Some exampleCalls) (path exampleX)
        = hasConnection (Some bridged) (path exampleX) ->
     typeOf descriptor = role).
Proof.
  apply (roles_and_descriptors (bridgeConnections dropLastSegment)
           exampleTree exampleCalls exampleX).
  - apply (bool_decide_unpack _). vm_compute. exact I.
  - cbn. do 2 apply list_elem_of_further. apply list_elem_of_here.
Defined.
